(** * Tutorialize-Anything: the three-stage analysis pipeline

    A shallow embedding of the Python agents under [agents/]:
    - [repo_fetcher_agent.py]      (chunk_text, simple_embedding, process)
    - [structure_analyzer_agent.py] (find_dependencies, process)
    - [flow_reasoning_agent.py]     (build_execution_flow, extract_key_components,
                                     extract_key_functions, process)
    - [agent_graph.py]              (run_agent_graph)

    Python values are modelled as follows.
    - [str] is a list of Unicode code points ([N]); [len] is [length].
    - [int] is [Z].
    - [float] is the kernel's binary64 [float].
    - a raised exception is the [Raise] branch of [result], carrying the
      class of the exception; [except C] tests [issubclass].
    - an insertion-ordered [dict] whose order is never observed is a [gmap].
    - a [set] that is only iterated is the list of its elements in iteration
      order. *)

From Stdlib Require Import ZArith NArith String Ascii Lia Floats Relations.
From stdpp Require Import gmap list.

Open Scope Z_scope.

(** ** Python strings *)

Abbreviation str := (list N) (only parsing).

(** A Python string literal: the code points of an ASCII literal. *)
Definition py (s : string) : str :=
  map N_of_ascii (list_ascii_of_string s).

Definition len {A} (l : list A) : Z := Z.of_nat (length l).

(** [str.isspace] on one character, the set [str.split()] separates on
    (CPython's [_PyUnicode_IsWhitespace]). *)
Definition isspace (c : N) : bool :=
  ((9 <=? c) && (c <=? 13) || (28 <=? c) && (c <=? 32)
   || (c =? 133) || (c =? 160) || (c =? 5760)
   || (8192 <=? c) && (c <=? 8202)
   || (c =? 8232) || (c =? 8233) || (c =? 8239) || (c =? 8287)
   || (c =? 12288))%N.

(** [str.split()] with no separator: runs of whitespace separate the words
    and no empty word is produced.  [cur] is the word being scanned. *)
Fixpoint split_from (s : str) (cur : str) : list str :=
  match s with
  | [] => match cur with [] => [] | _ => [cur] end
  | c :: s' =>
      if isspace c
      then match cur with
           | [] => split_from s' []
           | _ => cur :: split_from s' []
           end
      else split_from s' (cur ++ [c])
  end.

Definition split (s : str) : list str := split_from s [].

(** [sep.join(l)] *)
Fixpoint join (sep : str) (l : list str) : str :=
  match l with
  | [] => []
  | [w] => w
  | w :: l' => w ++ sep ++ join sep l'
  end.

(** [needle in haystack] on strings. *)
Fixpoint startswith (s p : str) : bool :=
  match p, s with
  | [], _ => true
  | _ :: _, [] => false
  | a :: p', b :: s' => (a =? b)%N && startswith s' p'
  end.

Fixpoint contains (haystack needle : str) : bool :=
  startswith haystack needle
  || match haystack with
     | [] => false
     | _ :: h' => contains h' needle
     end.

(** [str.lower].  CPython lowers a pure-ASCII string bytewise and sends any
    other string through the Unicode case tables; the tables are not part of
    the repository, so that path is the parameter [unicode_lower]. *)
Definition is_ascii (c : N) : bool := (c <? 128)%N.

Definition ascii_lower (c : N) : N :=
  if ((65 <=? c) && (c <=? 90))%N then (c + 32)%N else c.

Definition lower (unicode_lower : str -> str) (s : str) : str :=
  if forallb is_ascii s then map ascii_lower s else unicode_lower s.

(** ** Exceptions *)

Inductive exc_class :=
| BaseException
| Exception
| KeyboardInterrupt
| SystemExit
| ValueError
| UnicodeError
| UnicodeEncodeError
| RuntimeError
| LookupError
| KeyError
| MemoryError
| NetworkXException
| NetworkXError
| NetworkXAlgorithmError
| NetworkXUnfeasible.

Global Instance exc_class_eq_dec : EqDecision exc_class.
Proof. solve_decision. Defined.

(** The direct base class, as declared by Python and by [networkx.exception]. *)
Definition base_class (c : exc_class) : option exc_class :=
  match c with
  | BaseException => None
  | Exception | KeyboardInterrupt | SystemExit => Some BaseException
  | ValueError | RuntimeError | LookupError | MemoryError
  | NetworkXException => Some Exception
  | UnicodeError => Some ValueError
  | UnicodeEncodeError => Some UnicodeError
  | KeyError => Some LookupError
  | NetworkXError | NetworkXAlgorithmError => Some NetworkXException
  | NetworkXUnfeasible => Some NetworkXAlgorithmError
  end.

Fixpoint issubclass_upto (depth : nat) (c d : exc_class) : bool :=
  bool_decide (c = d)
  || match depth, base_class c with
     | S k, Some b => issubclass_upto k b d
     | _, _ => false
     end.

(** The hierarchy above is five classes deep. *)
Definition issubclass (c d : exc_class) : bool := issubclass_upto 5 c d.

Inductive result (A : Type) : Type :=
| Return (a : A)
| Raise (e : exc_class).
Arguments Return {A} a.
Arguments Raise {A} e.

Definition bind {A B} (c : result A) (k : A -> result B) : result B :=
  match c with
  | Return a => k a
  | Raise e => Raise e
  end.

Notation "x <- c ;; k" := (bind c (fun x => k))
  (at level 100, c at next level, right associativity).

(** [try: body  except cls: handler] *)
Definition try_except {A} (body : result A) (cls : exc_class)
    (handler : result A) : result A :=
  match body with
  | Return a => Return a
  | Raise e => if issubclass e cls then handler else Raise e
  end.

(** [[f(x) for x in l]] where [f] may raise. *)
Fixpoint mapM {A B} (f : A -> result B) (l : list A) : result (list B) :=
  match l with
  | [] => Return []
  | x :: l' => y <- f x ;; ys <- mapM f l' ;; Return (y :: ys)
  end.

(** ** Segmenter: [RepoFetcherAgent.chunk_text] *)

Record chunker := {
  chunks : list str;
  current_chunk : list str;
  current_size : Z
}.

(** One iteration of [for word in words]. *)
Definition chunk_step (chunk_size : Z) (st : chunker) (word : str) : chunker :=
  let cc := current_chunk st ++ [word] in
  let cs := current_size st + (len word + 1) in
  if cs >=? chunk_size
  then {| chunks := chunks st ++ [join (py " ") cc];
          current_chunk := []; current_size := 0 |}
  else {| chunks := chunks st; current_chunk := cc; current_size := cs |}.

Definition chunk_text (text : str) (chunk_size : Z) : list str :=
  let words := split text in
  let st := fold_left (chunk_step chunk_size) words
              {| chunks := []; current_chunk := []; current_size := 0 |} in
  match current_chunk st with
  | [] => chunks st
  | _ => chunks st ++ [join (py " ") (current_chunk st)]
  end.

(** The default argument [chunk_size = 1000]. *)
Definition chunk_text_default (text : str) : list str := chunk_text text 1000.

(** ** Segmenter: [RepoFetcherAgent.simple_embedding] *)

(** [str.encode()]: UTF-8.  Bytes are integers in [0, 256).  A surrogate code
    point cannot be encoded and raises [UnicodeEncodeError]; code points
    above U+10FFFF do not occur in a Python string and are rejected too. *)
Definition encode_char (c : N) : result (list Z) :=
  let z := Z.of_N c in
  if z <? 128 then Return [z]
  else if z <? 2048 then
    Return [Z.lor 192 (Z.shiftr z 6); Z.lor 128 (Z.land z 63)]
  else if z <? 65536 then
    if (55296 <=? z) && (z <=? 57343) then Raise UnicodeEncodeError
    else Return [Z.lor 224 (Z.shiftr z 12);
                 Z.lor 128 (Z.land (Z.shiftr z 6) 63);
                 Z.lor 128 (Z.land z 63)]
  else if z <? 1114112 then
    Return [Z.lor 240 (Z.shiftr z 18);
            Z.lor 128 (Z.land (Z.shiftr z 12) 63);
            Z.lor 128 (Z.land (Z.shiftr z 6) 63);
            Z.lor 128 (Z.land z 63)]
  else Raise UnicodeEncodeError.

Definition encode (text : str) : result (list Z) :=
  bs <- mapM encode_char text ;; Return (concat bs).

(** [hashlib.md5(data).digest()], after RFC 1321, on 32-bit words held in [Z]. *)
Module MD5.

Definition mask32 : Z := 4294967295.

Definition add32 (x y : Z) : Z := Z.land (x + y) mask32.

Definition not32 (x : Z) : Z := Z.lxor x mask32.

Definition rotl32 (x c : Z) : Z :=
  Z.land (Z.lor (Z.shiftl x c) (Z.shiftr x (32 - c))) mask32.

Definition shifts : list Z :=
  [7; 12; 17; 22; 7; 12; 17; 22; 7; 12; 17; 22; 7; 12; 17; 22;
   5; 9; 14; 20; 5; 9; 14; 20; 5; 9; 14; 20; 5; 9; 14; 20;
   4; 11; 16; 23; 4; 11; 16; 23; 4; 11; 16; 23; 4; 11; 16; 23;
   6; 10; 15; 21; 6; 10; 15; 21; 6; 10; 15; 21; 6; 10; 15; 21].

(** [floor (2^32 * abs (sin (i + 1)))] for [i] from 0 to 63. *)
Definition sines : list Z :=
  [3614090360; 3905402710; 606105819; 3250441966; 4118548399; 1200080426;
   2821735955; 4249261313; 1770035416; 2336552879; 4294925233; 2304563134;
   1804603682; 4254626195; 2792965006; 1236535329; 4129170786; 3225465664;
   643717713; 3921069994; 3593408605; 38016083; 3634488961; 3889429448;
   568446438; 3275163606; 4107603335; 1163531501; 2850285829; 4243563512;
   1735328473; 2368359562; 4294588738; 2272392833; 1839030562; 4259657740;
   2763975236; 1272893353; 4139469664; 3200236656; 681279174; 3936430074;
   3572445317; 76029189; 3654602809; 3873151461; 530742520; 3299628645;
   4096336452; 1126891415; 2878612391; 4237533241; 1700485571; 2399980690;
   4293915773; 2240044497; 1873313359; 4264355552; 2734768916; 1309151649;
   4149444226; 3174756917; 718787259; 3951481745].

(** Little-endian bytes of a word, and back. *)
Fixpoint le_bytes (n : nat) (x : Z) : list Z :=
  match n with
  | O => []
  | S k => Z.land x 255 :: le_bytes k (Z.shiftr x 8)
  end.

Fixpoint le_word (bs : list Z) : Z :=
  match bs with
  | [] => 0
  | b :: bs' => Z.lor b (Z.shiftl (le_word bs') 8)
  end.

(** Padding: a one bit, zeros up to 56 modulo 64, the bit length on 8 bytes. *)
Definition pad (msg : list Z) : list Z :=
  let n := len msg in
  let zeros := Z.to_nat ((55 - n) mod 64) in
  msg ++ [128] ++ replicate zeros 0 ++ le_bytes 8 ((8 * n) mod 2 ^ 64).

Fixpoint words (n : nat) (block : list Z) : list Z :=
  match n with
  | O => []
  | S k => le_word (take 4 block) :: words k (drop 4 block)
  end.

Record state := { A : Z; B : Z; C : Z; D : Z }.

Definition init : state :=
  {| A := 1732584193; B := 4023233417; C := 2562383102; D := 271733878 |}.

Definition round (M : list Z) (st : state) (i : Z) : state :=
  let '(F, g) :=
    if i <? 16 then
      (Z.lor (Z.land (B st) (C st)) (Z.land (not32 (B st)) (D st)), i)
    else if i <? 32 then
      (Z.lor (Z.land (D st) (B st)) (Z.land (not32 (D st)) (C st)),
       (5 * i + 1) mod 16)
    else if i <? 48 then
      (Z.lxor (B st) (Z.lxor (C st) (D st)), (3 * i + 5) mod 16)
    else
      (Z.lxor (C st) (Z.lor (B st) (not32 (D st))), (7 * i) mod 16) in
  let F' := add32 (add32 (add32 F (A st)) (nth (Z.to_nat i) sines 0))
                  (nth (Z.to_nat g) M 0) in
  {| A := D st; D := C st; C := B st;
     B := add32 (B st) (rotl32 F' (nth (Z.to_nat i) shifts 0)) |}.

Definition compress (st : state) (block : list Z) : state :=
  let M := words 16 block in
  let st' := fold_left (round M) (map Z.of_nat (seq 0 64)) st in
  {| A := add32 (A st) (A st'); B := add32 (B st) (B st');
     C := add32 (C st) (C st'); D := add32 (D st) (D st') |}.

Fixpoint absorb (n : nat) (st : state) (data : list Z) : state :=
  match n with
  | O => st
  | S k => absorb k (compress st (take 64 data)) (drop 64 data)
  end.

Definition digest (msg : list Z) : list Z :=
  let data := pad msg in
  let st := absorb (length data / 64) init data in
  le_bytes 4 (A st) ++ le_bytes 4 (B st) ++ le_bytes 4 (C st)
    ++ le_bytes 4 (D st).

End MD5.

(** [float(b)] for a byte. *)
Definition float_of_byte (b : Z) : float := PrimFloat.of_uint63 (Uint63.of_Z b).

Definition simple_embedding (text : str) : result (list float) :=
  data <- encode text ;;
  let hash_bytes := MD5.digest data in
  let embedding :=
    map (fun b => (float_of_byte b / 255)%float) (take 128 hash_bytes) in
  Return embedding.

Record ChunkResponse := {
  chunks_of : list str;
  embeddings_of : list (list float)
}.

(** [RepoFetcherAgent.process] *)
Definition repo_fetcher_process (text : str) : result ChunkResponse :=
  let chunks := chunk_text_default text in
  embeddings <- mapM simple_embedding chunks ;;
  Return {| chunks_of := chunks; embeddings_of := embeddings |}.

(** ** Structure Extractor: [StructureAnalyzerAgent.find_dependencies] *)

Section StructureAnalyzer.

(** The Unicode branch of [str.lower]. *)
Variable unicode_lower : str -> str.

(** [[e for e in entities if e.lower() in chunk_lower]] *)
Definition found_in (chunk_lower : str) (entities : list str) : list str :=
  filter (fun e => contains chunk_lower (lower unicode_lower e) = true)
         entities.

(** The two nested loops over [enumerate(found_entities)] and
    [found_entities[i+1:]]. *)
Fixpoint pairs_after (found_entities : list str) : list (str * str) :=
  match found_entities with
  | [] => []
  | entity1 :: rest =>
      map (pair entity1) (filter (fun entity2 => entity1 <> entity2) rest)
        ++ pairs_after rest
  end.

Definition find_dependencies (chunks : list str) (entities : list str)
    : list (str * str) :=
  flat_map
    (fun chunk =>
       let chunk_lower := lower unicode_lower chunk in
       pairs_after (found_in chunk_lower entities))
    chunks.

End StructureAnalyzer.

(** ** [networkx.DiGraph]

    The graph keeps its nodes and, per node, its successors in insertion
    order.  Here it is the list of nodes and the list of distinct edges, both in
    order of first insertion: the successors of [u] in adjacency order are the
    targets of the edges leaving [u], in edge order. *)

Record DiGraph := {
  G_nodes : list str;
  G_edges : list (str * str)
}.

Definition empty_graph : DiGraph := {| G_nodes := []; G_edges := [] |}.

Definition add_node (G : DiGraph) (n : str) : DiGraph :=
  if decide (n ∈ G_nodes G) then G
  else {| G_nodes := G_nodes G ++ [n]; G_edges := G_edges G |}.

Definition add_edge (G : DiGraph) (e : str * str) : DiGraph :=
  let G' := add_node (add_node G e.1) e.2 in
  if decide (e ∈ G_edges G') then G'
  else {| G_nodes := G_nodes G'; G_edges := G_edges G' ++ [e] |}.

Definition add_nodes_from (G : DiGraph) (ns : list str) : DiGraph :=
  fold_left add_node ns G.

Definition add_edges_from (G : DiGraph) (es : list (str * str)) : DiGraph :=
  fold_left add_edge es G.

(** [G.neighbors(u)], which is [G.successors(u)]. *)
Definition successors (G : DiGraph) (u : str) : list str :=
  (filter (fun e => e.1 = u) (G_edges G)).*2.

Definition in_degree (G : DiGraph) (v : str) : Z :=
  len (filter (fun e => e.2 = v) (G_edges G)).

Definition out_degree (G : DiGraph) (u : str) : Z :=
  len (filter (fun e => e.1 = u) (G_edges G)).

(** [G.degree()] of a directed graph counts both directions. *)
Definition degree (G : DiGraph) (v : str) : Z := in_degree G v + out_degree G v.

(** [list(G.edges())]: grouped by source, in node order. *)
Definition edge_view (G : DiGraph) : list (str * str) :=
  flat_map (fun u => map (pair u) (successors G u)) (G_nodes G).

(** *** [networkx.topological_sort]

    Kahn's algorithm by generations ([topological_generations]); the sort
    yields the generations one after the other. *)

(** The body of [for child in G.neighbors(node)]; a [KeyError] on
    [indegree_map] is re-raised as [RuntimeError]. *)
Definition relax (st : result (gmap str Z * list str)) (child : str)
    : result (gmap str Z * list str) :=
  s <- st ;;
  let '(indegree_map, zero_indegree) := s in
  match indegree_map !! child with
  | None => Raise RuntimeError
  | Some d =>
      let d' := d - 1 in
      if d' =? 0
      then Return (delete child indegree_map, zero_indegree ++ [child])
      else Return (<[child := d']> indegree_map, zero_indegree)
  end.

(** The body of [for node in this_generation]. *)
Definition visit (G : DiGraph) (st : result (gmap str Z * list str))
    (node : str) : result (gmap str Z * list str) :=
  s <- st ;;
  if decide (node ∈ G_nodes G)
  then fold_left relax (successors G node) (Return s)
  else Raise RuntimeError.

Definition generation (G : DiGraph) (indegree_map : gmap str Z)
    (this_generation : list str) : result (gmap str Z * list str) :=
  fold_left (visit G) this_generation (Return (indegree_map, [])).

(** The [while zero_indegree] loop and the check after it.  [None] means the
    fuel ran out. *)
Fixpoint generations (fuel : nat) (G : DiGraph) (indegree_map : gmap str Z)
    (zero_indegree : list str) : option (result (list str)) :=
  match zero_indegree with
  | [] =>
      Some (if decide (indegree_map = ∅) then Return []
            else Raise NetworkXUnfeasible)
  | _ =>
      match fuel with
      | O => None
      | S fuel' =>
          match generation G indegree_map zero_indegree with
          | Raise e => Some (Raise e)
          | Return (indegree_map', zero_indegree') =>
              match generations fuel' G indegree_map' zero_indegree' with
              | None => None
              | Some (Raise e) => Some (Raise e)
              | Some (Return rest) => Some (Return (zero_indegree ++ rest))
              end
          end
      end
  end.

Definition initial_indegree_map (G : DiGraph) : gmap str Z :=
  list_to_map
    (omap (fun v => let d := in_degree G v in
                    if 0 <? d then Some (v, d) else None)
          (G_nodes G)).

Definition initial_zero_indegree (G : DiGraph) : list str :=
  filter (fun v => in_degree G v = 0) (G_nodes G).

Definition topological_generations (G : DiGraph) : option (result (list str)) :=
  generations (S (length (G_nodes G))) G
    (initial_indegree_map G) (initial_zero_indegree G).

(** [list(nx.topological_sort(G))].  The loop runs once per generation, so
    the fuel above always suffices and the last branch is never taken. *)
Definition topological_sort (G : DiGraph) : result (list str) :=
  match topological_generations G with
  | Some r => r
  | None => Raise RuntimeError
  end.

(** *** [networkx.degree_centrality] *)

Definition float_of_int (z : Z) : float := PrimFloat.of_uint63 (Uint63.of_Z z).

Definition degree_centrality (G : DiGraph) : list (str * float) :=
  if len (G_nodes G) <=? 1 then map (fun n => (n, 1%float)) (G_nodes G)
  else
    let s := (1 / (float_of_int (len (G_nodes G)) - 1))%float in
    map (fun n => (n, (float_of_int (degree G n) * s)%float)) (G_nodes G).

(** [sorted(items, key=lambda x: x[1], reverse=True)]: stable, largest first. *)
Fixpoint insert_desc (x : str * float) (l : list (str * float))
    : list (str * float) :=
  match l with
  | [] => [x]
  | y :: l' =>
      if (x.2 <? y.2)%float then y :: insert_desc x l' else x :: l
  end.

Definition sorted_desc (l : list (str * float)) : list (str * float) :=
  foldr insert_desc [] l.

(** ** Flow Reasoner *)

(** The dependency graph as the dictionary passed between the agents; a
    missing key is [None]. *)
Record graph_data := {
  nodes : option (list str);
  edges : option (list (str * str));
  components : option (list (list str))
}.

(** [d.get(key, [])] *)
Definition get {A} (entry : option (list A)) : list A := default [] entry.

Definition flow_step (n : Z) (i : nat) (node : str) : str :=
  if Z.of_nat i =? 0 then py "Initialize " ++ node
  else if Z.of_nat i =? n - 1 then py "Return result from " ++ node
  else py "Process " ++ node.

Definition build_execution_flow (g : graph_data) : result (list str) :=
  let nodes := get (nodes g) in
  let edges := get (edges g) in
  match nodes with
  | [] => Return [py "System initializes"; py "Processes input";
                  py "Returns output"]
  | _ =>
      let G := add_edges_from (add_nodes_from empty_graph nodes) edges in
      topological_order <-
        try_except (topological_sort G) NetworkXError (Return (take 10 nodes)) ;;
      let flow_steps :=
        imap (flow_step (len topological_order)) (take 8 topological_order) in
      Return flow_steps
  end.

Definition extract_key_components (g : graph_data) : list str :=
  let nodes := get (nodes g) in
  let edges := get (edges g) in
  match nodes with
  | [] => [py "core system"; py "input handler"; py "output formatter"]
  | _ =>
      let G := add_edges_from (add_nodes_from empty_graph nodes) edges in
      let centrality := degree_centrality G in
      let sorted_nodes := sorted_desc centrality in
      map fst (take 5 sorted_nodes)
  end.

Definition function_keywords : list str :=
  [py "handler"; py "process"; py "create"; py "update"; py "delete";
   py "fetch"; py "get"; py "post"; py "put"].

Section FlowReasoner.

Variable unicode_lower : str -> str.

Definition extract_key_functions (g : graph_data) : list str :=
  let nodes := get (nodes g) in
  let functions :=
    filter (fun node =>
              existsb (fun kw => contains (lower unicode_lower node) kw)
                      function_keywords = true)
           nodes in
  match functions, nodes with
  | _ :: _, _ => take 5 functions
  | [], _ :: _ => take 5 nodes
  | [], [] => [py "main"; py "init"; py "run"]
  end.

Record FlowResponse := {
  execution_flow : list str;
  key_components : list str;
  key_functions : list str
}.

(** [FlowReasoningAgent.process] *)
Definition flow_process (dependency_graph : graph_data) : result FlowResponse :=
  execution_flow <- build_execution_flow dependency_graph ;;
  let key_components := extract_key_components dependency_graph in
  let key_functions := extract_key_functions dependency_graph in
  Return {| execution_flow := execution_flow;
            key_components := key_components;
            key_functions := key_functions |}.

End FlowReasoner.

(** ** Structure Extractor: [StructureAnalyzerAgent.process] *)

Record StructureResponse := { dependency_graph : graph_data }.

Section StructureProcess.

Variable unicode_lower : str -> str.

(** [extract_entities] runs the regular expressions of the [re] module and
    returns a set; here it is a parameter that gives the entities in the
    iteration order of that set. *)
Variable extract_entities : list str -> list str.

(** [list(nx.weakly_connected_components(G))] *)
Variable weakly_connected_components : DiGraph -> list (list str).

(** The graph built from the entities and their dependencies. *)
Definition build_graph (chunks : list str) (entities : list str) : graph_data :=
  let dependencies := find_dependencies unicode_lower chunks entities in
  let G := fold_left add_node entities empty_graph in
  let G := fold_left add_edge dependencies G in
  {| nodes := Some (G_nodes G);
     edges := Some (edge_view G);
     components := Some (match G_nodes G with
                         | [] => []
                         | _ => weakly_connected_components G
                         end) |}.

Definition structure_process (chunks : list str) : result StructureResponse :=
  let entities := extract_entities chunks in
  Return {| dependency_graph := build_graph chunks entities |}.

End StructureProcess.

(** ** Orchestrator: [run_agent_graph] *)

Definition generic_summary : FlowResponse :=
  {| key_components :=
       [py "core system"; py "input handler"; py "output formatter"];
     key_functions := [py "main"; py "init"; py "process"];
     execution_flow :=
       [py "System initializes core components";
        py "Input handler receives and validates data";
        py "Main processor transforms the data";
        py "Output formatter prepares response";
        py "System returns formatted result"] |}.

Section Orchestrator.

(** The [process] methods of the three imported agents. *)
Variable repo_fetcher_agent : str -> result ChunkResponse.
Variable structure_analyzer_agent : list str -> result StructureResponse.
Variable flow_reasoning_agent : graph_data -> result FlowResponse.

Definition execute_pipeline (text : str) : result FlowResponse :=
  chunk_result <- repo_fetcher_agent text ;;
  structure_result <- structure_analyzer_agent (chunks_of chunk_result) ;;
  flow_result <- flow_reasoning_agent (dependency_graph structure_result) ;;
  Return flow_result.

Definition run_agent_graph (text : str) : result FlowResponse :=
  try_except (execute_pipeline text) Exception (Return generic_summary).

End Orchestrator.

(** [run_agent_graph] on the agents of this repository. *)
Definition analyze (unicode_lower : str -> str)
    (extract_entities : list str -> list str)
    (weakly_connected_components : DiGraph -> list (list str))
    (text : str) : result FlowResponse :=
  run_agent_graph repo_fetcher_process
    (structure_process unicode_lower extract_entities
       weakly_connected_components)
    (flow_process unicode_lower) text.

(** * Verification *)

(** ** Words, [split] and [join] *)

(** A word: not empty, no whitespace character. *)
Definition no_space (w : str) : Prop := Forall (fun c => isspace c = false) w.

Definition word (w : str) : Prop := w <> [] /\ no_space w.

Lemma split_from_word (w s cur : str) :
  no_space w -> split_from (w ++ s) cur = split_from s (cur ++ w).
Proof.
  intros Hw. revert cur.
  induction Hw as [|c w Hc _ IH]; intros cur; simpl.
  - by rewrite app_nil_r.
  - rewrite Hc, IH. by rewrite <- app_assoc.
Qed.

Lemma split_from_words (s cur : str) :
  no_space cur -> Forall word (split_from s cur).
Proof.
  revert cur. induction s as [|c s IH]; intros cur Hcur; simpl.
  - destruct cur; [constructor|].
    constructor; [by split|constructor].
  - destruct (isspace c) eqn:Hc.
    + destruct cur as [|a cur].
      * apply IH. constructor.
      * constructor; [by split|]. apply IH. constructor.
    + apply IH. apply Forall_app. split; [done|]. by apply Forall_singleton.
Qed.

Lemma split_words (s : str) : Forall word (split s).
Proof. apply split_from_words. constructor. Qed.

Lemma split_one_word (w : str) : word w -> split w = [w].
Proof.
  intros [Hne Hw]. unfold split.
  rewrite <- (app_nil_r w) at 1. rewrite split_from_word by done. simpl.
  by destruct w.
Qed.

Lemma split_join (ws : list str) :
  Forall word ws -> split (join (py " ") ws) = ws.
Proof.
  induction 1 as [|w ws Hw Hws IH]; [done|].
  destruct ws as [|w' ws]; [by apply split_one_word|].
  change (join (py " ") (w :: w' :: ws))
    with (w ++ 32%N :: join (py " ") (w' :: ws)).
  destruct Hw as [Hne Hw]. unfold split.
  rewrite split_from_word by done.
  change (split_from (32%N :: ?s) ([] ++ w))
    with (match w with [] => split s | _ => w :: split s end).
  destruct w; [done|]. by rewrite IH.
Qed.

Lemma split_join_nonempty (ws : list str) :
  Forall word ws -> ws <> [] -> split (join (py " ") ws) <> [].
Proof. intros Hws Hne. by rewrite split_join. Qed.

(** ** [chunk_text] *)

(** What the loop of [chunk_text] maintains: the words of the closed chunks
    followed by the accumulated words are the words consumed so far, and every
    closed chunk joins at least one word. *)
Record chunker_inv (consumed : list str) (st : chunker) : Prop := {
  inv_words : flat_map split (chunks st) ++ current_chunk st = consumed;
  inv_current : Forall word (current_chunk st);
  inv_closed :
    Forall (fun c => exists ws, ws <> [] /\ Forall word ws
                                /\ c = join (py " ") ws) (chunks st)
}.

Lemma flat_map_snoc {A B} (f : A -> list B) (l : list A) (x : A) :
  flat_map f (l ++ [x]) = flat_map f l ++ f x.
Proof. rewrite flat_map_app. simpl. by rewrite app_nil_r. Qed.

Lemma chunk_step_inv (chunk_size : Z) (consumed : list str) (st : chunker)
    (w : str) :
  word w -> chunker_inv consumed st ->
  chunker_inv (consumed ++ [w]) (chunk_step chunk_size st w).
Proof.
  intros Hw [Hwords Hcur Hclosed].
  assert (Hcc : Forall word (current_chunk st ++ [w])).
  { apply Forall_app. split; [done|]. by apply Forall_singleton. }
  unfold chunk_step. case_match; constructor; simpl.
  - rewrite flat_map_snoc, split_join by done.
    rewrite app_nil_r, app_assoc. by rewrite Hwords.
  - constructor.
  - apply Forall_app. split; [done|]. apply Forall_singleton.
    exists (current_chunk st ++ [w]). split; [|done].
    by destruct (current_chunk st).
  - rewrite app_assoc. by rewrite Hwords.
  - done.
  - done.
Qed.

Lemma chunk_loop_inv (chunk_size : Z) (ws consumed : list str) (st : chunker) :
  Forall word ws -> chunker_inv consumed st ->
  chunker_inv (consumed ++ ws) (fold_left (chunk_step chunk_size) ws st).
Proof.
  intros Hws. revert consumed st.
  induction Hws as [|w ws Hw _ IH]; intros consumed st Hinv; simpl.
  - by rewrite app_nil_r.
  - replace (consumed ++ w :: ws) with ((consumed ++ [w]) ++ ws)
      by (by rewrite <- app_assoc).
    apply IH. by apply chunk_step_inv.
Qed.

Lemma chunker_inv_init :
  chunker_inv [] {| chunks := []; current_chunk := []; current_size := 0 |}.
Proof. by constructor; simpl. Qed.

(** Every chunk of [chunk_text] joins a non-empty list of words of the text,
    and the chunks, split again, give back the words. *)
Lemma chunk_text_spec (text : str) (chunk_size : Z) :
  flat_map split (chunk_text text chunk_size) = split text
  /\ Forall (fun c => exists ws, ws <> [] /\ Forall word ws
                                 /\ c = join (py " ") ws)
            (chunk_text text chunk_size).
Proof.
  unfold chunk_text.
  pose proof (chunk_loop_inv chunk_size (split text) [] _
                (split_words text) chunker_inv_init) as [Hwords Hcur Hclosed].
  simpl in Hwords.
  destruct (current_chunk _) as [|w cc] eqn:Hcc.
  - split; [|done]. by rewrite app_nil_r in Hwords.
  - split.
    + rewrite flat_map_snoc, split_join by done. done.
    + apply Forall_app. split; [done|]. apply Forall_singleton.
      by exists (w :: cc).
Qed.

(** C5: for every text and every positive chunk size, the chunks of
    [chunk_text], each split on whitespace and the word lists concatenated in
    chunk order, are exactly the whitespace-split words of the text. *)
Theorem chunk_text_preserves_words (text : str) (chunk_size : Z) :
  0 < chunk_size ->
  flat_map split (chunk_text text chunk_size) = split text.
Proof. intros _. apply chunk_text_spec. Qed.

Lemma chunk_text_preserves_words_witness :
  0 < 10
  /\ flat_map split (chunk_text (py "hello  world foo bar baz") 10)
     = split (py "hello  world foo bar baz").
Proof.
  split; [lia|].
  apply (chunk_text_preserves_words (py "hello  world foo bar baz") 10). lia.
Defined.

(** C8: the empty text gives no chunk; a single word longer than the chunk
    size gives exactly one chunk, the word itself; and every chunk returned
    joins at least one word (it splits into a non-empty word list). *)
Theorem chunk_text_edge_cases :
  (forall chunk_size, chunk_text [] chunk_size = [])
  /\ (forall w chunk_size,
        word w -> chunk_size < len w -> chunk_text w chunk_size = [w])
  /\ (forall text chunk_size c,
        c ∈ chunk_text text chunk_size ->
        split c <> []
        /\ exists ws, ws <> [] /\ Forall word ws /\ c = join (py " ") ws).
Proof.
  split; [done|]. split.
  - intros w chunk_size Hw Hlen. unfold chunk_text.
    rewrite split_one_word by done. simpl. unfold chunk_step. simpl.
    assert ((0 + (len w + 1) >=? chunk_size) = true) as -> by lia. done.
  - intros text chunk_size c Hc.
    destruct (chunk_text_spec text chunk_size) as [_ Hall].
    rewrite Forall_forall in Hall. destruct (Hall c Hc) as (ws & Hne & Hws & ->).
    split; [by apply split_join_nonempty|]. by exists ws.
Qed.

Lemma chunk_text_edge_cases_witness :
  word (py "internationalization")
  /\ 5 < len (py "internationalization")
  /\ chunk_text (py "internationalization") 5 = [py "internationalization"].
Proof.
  assert (Hw : word (py "internationalization")).
  { split; [done|]. by repeat constructor. }
  assert (Hlen : 5 < len (py "internationalization")) by reflexivity.
  split; [exact Hw|]. split; [exact Hlen|].
  exact (proj1 (proj2 chunk_text_edge_cases) _ 5 Hw Hlen).
Defined.

(** ** [simple_embedding] *)

Lemma le_bytes_length (n : nat) (x : Z) : length (MD5.le_bytes n x) = n.
Proof. revert x. induction n as [|n IH]; intros x; simpl; [done|]. by rewrite IH. Qed.

Lemma le_bytes_range (n : nat) (x : Z) :
  Forall (fun b => 0 <= b < 256) (MD5.le_bytes n x).
Proof.
  revert x. induction n as [|n IH]; intros x; simpl; constructor; [|apply IH].
  change 255 with (Z.ones 8). rewrite Z.land_ones by lia.
  apply Z.mod_pos_bound. lia.
Qed.

(** An MD5 digest has 16 bytes, whatever the message. *)
Lemma digest_length (msg : list Z) : length (MD5.digest msg) = 16%nat.
Proof. unfold MD5.digest. rewrite !length_app, !le_bytes_length. done. Qed.

Lemma digest_range (msg : list Z) :
  Forall (fun b => 0 <= b < 256) (MD5.digest msg).
Proof. unfold MD5.digest. rewrite !Forall_app. repeat split; apply le_bytes_range. Qed.

(** A float in the closed interval [[0, 1]]. *)
Definition in_unit_interval (x : float) : Prop :=
  (0 <=? x)%float = true /\ (x <=? 1)%float = true.

Lemma byte_float_in_unit_interval (b : Z) :
  0 <= b < 256 -> in_unit_interval (float_of_byte b / 255)%float.
Proof.
  intros Hb.
  assert (Hall : forallb (fun b => let x := (float_of_byte b / 255)%float in
                                   (0 <=? x)%float && (x <=? 1)%float)
                         (Z.of_nat <$> seq 0 256) = true)
    by (vm_compute; reflexivity).
  rewrite List.forallb_forall in Hall.
  enough (Hin : b ∈ Z.of_nat <$> seq 0 256).
  { apply list_elem_of_In, Hall, andb_prop in Hin. exact Hin. }
  apply list_elem_of_fmap. exists (Z.to_nat b). split; [lia|].
  apply elem_of_seq. lia.
Qed.

Lemma simple_embedding_cases (text : str) :
  match simple_embedding text with
  | Return l => length l = 16%nat /\ Forall in_unit_interval l
  | Raise e => e = UnicodeEncodeError
  end.
Proof.
  unfold simple_embedding, encode.
  assert (Hm : match mapM encode_char text with
               | Return _ => True
               | Raise e => e = UnicodeEncodeError
               end).
  { induction text as [|c text IH]; simpl; [done|].
    assert (Hc : match encode_char c with
                 | Return _ => True
                 | Raise e => e = UnicodeEncodeError
                 end).
    { unfold encode_char. clear.
      destruct (Z.of_N c <? 128); [done|].
      destruct (Z.of_N c <? 2048); [done|].
      destruct (Z.of_N c <? 65536).
      - by destruct (_ && _).
      - by destruct (Z.of_N c <? 1114112). }
    destruct (encode_char c); simpl; [|done].
    destruct (mapM encode_char text); simpl; done. }
  destruct (mapM encode_char text) as [bs|e]; cbn [bind]; [|done].
  pose proof (digest_length (concat bs)) as Hlen.
  pose proof (digest_range (concat bs)) as Hrange.
  rewrite take_ge by lia. split.
  - by rewrite length_map.
  - apply Forall_fmap. eapply Forall_impl; [exact Hrange|].
    intros b Hb. by apply byte_float_in_unit_interval.
Qed.

(** C1: [simple_embedding] does not return 128 values.  On the empty text
    it returns the 16 bytes of the MD5 digest, each divided by 255; on every
    text it either fails to encode or returns exactly 16 values, each in the
    closed interval from 0 to 1. *)
Theorem simple_embedding_has_16_values :
  (exists l, simple_embedding [] = Return l
             /\ length l = 16%nat /\ length l <> 128%nat)
  /\ (forall text,
        match simple_embedding text with
        | Return l => length l = 16%nat /\ Forall in_unit_interval l
        | Raise e => e = UnicodeEncodeError
        end).
Proof.
  split; [|apply simple_embedding_cases].
  pose proof (simple_embedding_cases []) as H.
  destruct (simple_embedding []) as [l|e] eqn:He; [|by vm_compute in He].
  exists l. destruct H as [Hl _]. rewrite Hl. done.
Qed.

(** The MD5 model on the test suite of RFC 1321. *)
Example md5_empty :
  MD5.digest [] = [212; 29; 140; 217; 143; 0; 178; 4; 233; 128; 9; 152; 236;
                   248; 66; 126].
Proof. vm_compute. reflexivity. Qed.

Example md5_abc :
  (bs <- encode (py "abc") ;; Return (MD5.digest bs))
  = Return [144; 1; 80; 152; 60; 210; 79; 176; 214; 150; 63; 125; 40; 225;
            127; 114].
Proof. vm_compute. reflexivity. Qed.

(** ** [extract_key_functions] *)

Definition three_entities : list str :=
  [py "getUser"; py "setConfig"; py "Widget"].

(** A graph given by its nodes alone. *)
Definition nodes_only (ns : list str) : graph_data :=
  {| nodes := Some ns; edges := None; components := None |}.

(** C3 fails on the code: on the nodes getUser, setConfig, Widget the
    result is not the one-element list of getUser, because the lowercase
    form of Widget contains the keyword get. *)
Lemma extract_key_functions_keeps_Widget :
  (forall unicode_lower,
     extract_key_functions unicode_lower (nodes_only three_entities)
     = [py "getUser"; py "Widget"])
  /\ ~ (forall unicode_lower,
          extract_key_functions unicode_lower (nodes_only three_entities)
          = [py "getUser"]).
Proof.
  split; [done|]. intros H. specialize (H (fun s => s)). by vm_compute in H.
Qed.

(** C3, amended: on a graph whose nodes are exactly getUser, setConfig and
    Widget, in any order and with any edges, [extract_key_functions] returns
    getUser and Widget in node order, and not setConfig. *)
Theorem extract_key_functions_three_entities (unicode_lower : str -> str)
    (g : graph_data) :
  get (nodes g) ≡ₚ three_entities ->
  extract_key_functions unicode_lower g
  = filter (fun n => n <> py "setConfig") (get (nodes g))
  /\ py "getUser" ∈ extract_key_functions unicode_lower g
  /\ py "Widget" ∈ extract_key_functions unicode_lower g
  /\ py "setConfig" ∉ extract_key_functions unicode_lower g.
Proof.
  intros Hperm.
  assert (Hrest : extract_key_functions unicode_lower g
                  = filter (fun n => n <> py "setConfig") (get (nodes g))).
  { destruct g as [ns es cs]. unfold extract_key_functions. simpl in *.
    pose proof (Permutation_length Hperm) as Hlen.
    assert (Hnd : NoDup (get ns)).
    { rewrite Hperm. apply (bool_decide_unpack _). by vm_compute. }
    assert (Hin : Forall (fun n => n ∈ three_entities) (get ns)).
    { apply Forall_forall. intros n Hn. by rewrite <- Hperm. }
    destruct (get ns) as [|x [|y [|z [|? ?]]]]; try done.
    apply (bool_decide_pack _) in Hnd.
    apply Forall_cons_1 in Hin as [Hx Hin].
    apply Forall_cons_1 in Hin as [Hy Hin].
    apply Forall_cons_1 in Hin as [Hz _].
    unfold three_entities in Hx, Hy, Hz.
    repeat (apply elem_of_cons in Hx as [->|Hx]); [| | |by inversion Hx];
      (repeat (apply elem_of_cons in Hy as [->|Hy]); [| | |by inversion Hy]);
      (repeat (apply elem_of_cons in Hz as [->|Hz]); [| | |by inversion Hz]);
      vm_compute in Hnd;
      first [ exact (False_ind _ Hnd) | clear; vm_compute; reflexivity ]. }
  rewrite Hrest. split; [done|].
  rewrite !list_elem_of_filter, Hperm. unfold three_entities.
  split; [|split].
  - split; [done|]. apply elem_of_cons. by left.
  - split; [done|]. do 2 (apply elem_of_cons; right). apply elem_of_cons. by left.
  - intros [Hne _]. done.
Qed.

Lemma extract_key_functions_three_entities_witness :
  get (nodes (nodes_only three_entities)) ≡ₚ three_entities
  /\ extract_key_functions (fun s => s) (nodes_only three_entities)
     = [py "getUser"; py "Widget"].
Proof.
  assert (Hperm : get (nodes (nodes_only three_entities)) ≡ₚ three_entities)
    by reflexivity.
  split; [exact Hperm|].
  exact (proj1 (extract_key_functions_three_entities
                  (fun s => s) (nodes_only three_entities) Hperm)).
Defined.

(** ** The empty entity set *)

Lemma find_dependencies_no_entities (unicode_lower : str -> str)
    (chunks : list str) :
  find_dependencies unicode_lower chunks [] = [].
Proof. unfold find_dependencies. induction chunks as [|c chunks IH]; done. Qed.

(** C7: with no entities, [find_dependencies] returns no pair for every
    chunk list, and on the graph built from them the three extractors of the
    Flow Reasoner return their fixed fallbacks. *)
Theorem empty_entities_fallbacks (unicode_lower : str -> str)
    (weakly_connected_components : DiGraph -> list (list str))
    (chunks : list str) :
  let g := build_graph unicode_lower weakly_connected_components chunks [] in
  find_dependencies unicode_lower chunks [] = []
  /\ get (nodes g) = [] /\ get (edges g) = []
  /\ build_execution_flow g
     = Return [py "System initializes"; py "Processes input";
               py "Returns output"]
  /\ extract_key_components g
     = [py "core system"; py "input handler"; py "output formatter"]
  /\ extract_key_functions unicode_lower g
     = [py "main"; py "init"; py "run"].
Proof.
  unfold build_graph. rewrite find_dependencies_no_entities. simpl.
  repeat split.
Qed.

(** ** [run_agent_graph] *)

(** Some stage of the pipeline raises [e] on [text]. *)
Definition stage_raises
    (repo_fetcher_agent : str -> result ChunkResponse)
    (structure_analyzer_agent : list str -> result StructureResponse)
    (flow_reasoning_agent : graph_data -> result FlowResponse)
    (text : str) (e : exc_class) : Prop :=
  repo_fetcher_agent text = Raise e
  \/ (exists chunk_result,
        repo_fetcher_agent text = Return chunk_result
        /\ structure_analyzer_agent (chunks_of chunk_result) = Raise e)
  \/ (exists chunk_result structure_result,
        repo_fetcher_agent text = Return chunk_result
        /\ structure_analyzer_agent (chunks_of chunk_result)
           = Return structure_result
        /\ flow_reasoning_agent (dependency_graph structure_result) = Raise e).

(** C4: whatever the three stages are, when one of them raises an error (an
    instance of [Exception]), [run_agent_graph] returns the fixed generic
    summary instead of raising. *)
Theorem run_agent_graph_fallback
    (repo_fetcher_agent : str -> result ChunkResponse)
    (structure_analyzer_agent : list str -> result StructureResponse)
    (flow_reasoning_agent : graph_data -> result FlowResponse)
    (text : str) (e : exc_class) :
  issubclass e Exception = true ->
  stage_raises repo_fetcher_agent structure_analyzer_agent
    flow_reasoning_agent text e ->
  run_agent_graph repo_fetcher_agent structure_analyzer_agent
    flow_reasoning_agent text
  = Return
      {| key_components :=
           [py "core system"; py "input handler"; py "output formatter"];
         key_functions := [py "main"; py "init"; py "process"];
         execution_flow :=
           [py "System initializes core components";
            py "Input handler receives and validates data";
            py "Main processor transforms the data";
            py "Output formatter prepares response";
            py "System returns formatted result"] |}.
Proof.
  intros He Hraise. unfold run_agent_graph, execute_pipeline.
  destruct Hraise as [H1|[(c & H1 & H2)|(c & s & H1 & H2 & H3)]].
  - rewrite H1. simpl. by rewrite He.
  - rewrite H1. simpl. rewrite H2. simpl. by rewrite He.
  - rewrite H1. simpl. rewrite H2. simpl. rewrite H3. simpl. by rewrite He.
Qed.

(** A text with a lone surrogate (as an undecodable command-line byte
    becomes) cannot be encoded, so the first stage raises. *)
Lemma run_agent_graph_fallback_witness :
  analyze (fun s => s) (fun _ => []) (fun _ => []) [56448%N]
  = Return generic_summary.
Proof.
  apply (run_agent_graph_fallback repo_fetcher_process
           (structure_process (fun s => s) (fun _ => []) (fun _ => []))
           (flow_process (fun s => s)) [56448%N] UnicodeEncodeError).
  - reflexivity.
  - left. vm_compute. reflexivity.
Defined.

(** ** [DiGraph]: nodes, edges and well-formedness *)

(** What the graph's mutators maintain: no node and no edge is stored twice,
    and both ends of an edge are nodes. *)
Record graph_wf (G : DiGraph) : Prop := {
  wf_nodes : NoDup (G_nodes G);
  wf_edges : NoDup (G_edges G);
  wf_ends : forall e, e ∈ G_edges G -> e.1 ∈ G_nodes G /\ e.2 ∈ G_nodes G
}.

Lemma graph_wf_empty : graph_wf empty_graph.
Proof. split; simpl; [constructor|constructor|]. intros e He. inversion He. Qed.

Lemma add_node_nodes (G : DiGraph) (n x : str) :
  x ∈ G_nodes (add_node G n) <-> x ∈ G_nodes G \/ x = n.
Proof.
  unfold add_node. destruct (decide (n ∈ G_nodes G)); simpl.
  - split; [by left|]. intros [?| ->]; done.
  - rewrite elem_of_app, list_elem_of_singleton. done.
Qed.

Lemma add_node_edges (G : DiGraph) (n : str) :
  G_edges (add_node G n) = G_edges G.
Proof. unfold add_node. by destruct (decide (n ∈ G_nodes G)). Qed.

Lemma add_node_wf (G : DiGraph) (n : str) : graph_wf G -> graph_wf (add_node G n).
Proof.
  intros [Hn He Hends]. split.
  - unfold add_node. destruct (decide (n ∈ G_nodes G)); simpl; [done|].
    apply NoDup_app. split; [done|]. split; [|apply NoDup_singleton].
    intros x Hx ->%list_elem_of_singleton. done.
  - by rewrite add_node_edges.
  - intros e. rewrite add_node_edges, !add_node_nodes. intros H%Hends. tauto.
Qed.

Lemma add_node_present (G : DiGraph) (n : str) :
  n ∈ G_nodes G -> add_node G n = G.
Proof. intros Hn. unfold add_node. by destruct (decide (n ∈ G_nodes G)). Qed.

Lemma add_edge_nodes (G : DiGraph) (e : str * str) (x : str) :
  x ∈ G_nodes (add_edge G e) <-> x ∈ G_nodes G \/ x = e.1 \/ x = e.2.
Proof.
  unfold add_edge.
  destruct (decide (e ∈ G_edges (add_node (add_node G e.1) e.2))); simpl;
    rewrite !add_node_nodes; tauto.
Qed.

Lemma add_edge_edges (G : DiGraph) (e x : str * str) :
  x ∈ G_edges (add_edge G e) <-> x ∈ G_edges G \/ x = e.
Proof.
  unfold add_edge.
  destruct (decide (e ∈ G_edges (add_node (add_node G e.1) e.2))) as [Hin|Hin];
    simpl; rewrite ?elem_of_app, ?list_elem_of_singleton;
    rewrite !add_node_edges in *; [|done].
  split; [by left|]. intros [?| ->]; done.
Qed.

Lemma add_edge_wf (G : DiGraph) (e : str * str) : graph_wf G -> graph_wf (add_edge G e).
Proof.
  intros HG.
  pose proof (add_node_wf _ e.2 (add_node_wf _ e.1 HG)) as [Hn He Hends].
  split.
  - unfold add_edge. by destruct (decide _).
  - unfold add_edge. destruct (decide _) as [|Hnin]; simpl; [done|].
    apply NoDup_app. split; [done|]. split; [|apply NoDup_singleton].
    intros x Hx ->%list_elem_of_singleton. done.
  - intros x. rewrite add_edge_edges, !add_edge_nodes.
    intros [Hx| ->]; [|tauto].
    assert (Hx' : x ∈ G_edges (add_node (add_node G e.1) e.2))
      by (by rewrite !add_node_edges).
    apply Hends in Hx'. rewrite !add_node_nodes in Hx'. tauto.
Qed.

Lemma add_edge_same_nodes (G : DiGraph) (e : str * str) :
  e.1 ∈ G_nodes G -> e.2 ∈ G_nodes G -> G_nodes (add_edge G e) = G_nodes G.
Proof.
  intros H1 H2. unfold add_edge.
  rewrite (add_node_present G e.1 H1), (add_node_present G e.2 H2).
  by destruct (decide _).
Qed.

Lemma add_nodes_from_wf (ns : list str) (G : DiGraph) :
  graph_wf G -> graph_wf (add_nodes_from G ns).
Proof.
  unfold add_nodes_from. revert G.
  induction ns as [|n ns IH]; intros G HG; simpl; [done|].
  by apply IH, add_node_wf.
Qed.

Lemma add_nodes_from_nodes (ns : list str) (G : DiGraph) (x : str) :
  x ∈ G_nodes (add_nodes_from G ns) <-> x ∈ G_nodes G \/ x ∈ ns.
Proof.
  unfold add_nodes_from. revert G.
  induction ns as [|n ns IH]; intros G; simpl.
  - rewrite elem_of_nil. tauto.
  - rewrite IH, add_node_nodes, elem_of_cons. tauto.
Qed.

Lemma add_nodes_from_edges (ns : list str) (G : DiGraph) :
  G_edges (add_nodes_from G ns) = G_edges G.
Proof.
  unfold add_nodes_from. revert G.
  induction ns as [|n ns IH]; intros G; simpl; [done|].
  by rewrite IH, add_node_edges.
Qed.

(** Distinct fresh nodes are appended in order. *)
Lemma add_nodes_from_fresh (ns : list str) (G : DiGraph) :
  NoDup (G_nodes G ++ ns) ->
  G_nodes (add_nodes_from G ns) = G_nodes G ++ ns.
Proof.
  unfold add_nodes_from. revert G.
  induction ns as [|n ns IH]; intros G Hnd; simpl.
  - by rewrite app_nil_r.
  - assert (Hn : n ∉ G_nodes G).
    { apply NoDup_app in Hnd as (_ & Hdisj & _). intros Hin.
      apply (Hdisj n Hin). by left. }
    assert (Hadd : G_nodes (add_node G n) = G_nodes G ++ [n]).
    { unfold add_node. by destruct (decide (n ∈ G_nodes G)). }
    rewrite IH; rewrite Hadd; by rewrite <- app_assoc.
Qed.

Lemma add_edges_from_wf (es : list (str * str)) (G : DiGraph) :
  graph_wf G -> graph_wf (add_edges_from G es).
Proof.
  unfold add_edges_from. revert G.
  induction es as [|e es IH]; intros G HG; simpl; [done|].
  by apply IH, add_edge_wf.
Qed.

Lemma add_edges_from_edges (es : list (str * str)) (G : DiGraph)
    (x : str * str) :
  x ∈ G_edges (add_edges_from G es) <-> x ∈ G_edges G \/ x ∈ es.
Proof.
  unfold add_edges_from. revert G.
  induction es as [|e es IH]; intros G; simpl.
  - rewrite elem_of_nil. tauto.
  - rewrite IH, add_edge_edges, elem_of_cons. tauto.
Qed.

Lemma add_edges_from_same_nodes (es : list (str * str)) (G : DiGraph) :
  Forall (fun e => e.1 ∈ G_nodes G /\ e.2 ∈ G_nodes G) es ->
  G_nodes (add_edges_from G es) = G_nodes G.
Proof.
  unfold add_edges_from. revert G.
  induction es as [|e es IH]; intros G Hes; simpl; [done|].
  apply Forall_cons_1 in Hes as [[H1 H2] Hes].
  pose proof (add_edge_same_nodes G e H1 H2) as Hsame.
  rewrite IH; [done|]. by rewrite Hsame.
Qed.

Lemma edge_view_edges (G : DiGraph) (e : str * str) :
  graph_wf G -> e ∈ edge_view G <-> e ∈ G_edges G.
Proof.
  intros [_ _ Hends]. unfold edge_view, successors.
  rewrite list_elem_of_In, in_flat_map. setoid_rewrite <- list_elem_of_In.
  split.
  - intros (u & Hu & He). apply list_elem_of_fmap in He as (v & -> & Hv).
    apply list_elem_of_fmap in Hv as ([u' v'] & -> & Hv).
    apply list_elem_of_filter in Hv as [Heq Hv]. simpl in *. by subst.
  - intros He. exists e.1. split; [by apply Hends|].
    apply list_elem_of_fmap. exists e.2. split; [by destruct e|].
    apply list_elem_of_fmap. exists e. split; [done|].
    by apply list_elem_of_filter.
Qed.

(** ** [find_dependencies] and the graph of [process] *)

Lemma pairs_after_distinct (found : list str) :
  Forall (fun e => e.1 <> e.2) (pairs_after found).
Proof.
  induction found as [|e1 rest IH]; simpl; [constructor|].
  apply Forall_app. split; [|done].
  apply Forall_fmap, Forall_forall. intros e2 He2.
  by apply list_elem_of_filter in He2 as [Hne _].
Qed.

Lemma find_dependencies_distinct (unicode_lower : str -> str)
    (chunks entities : list str) :
  Forall (fun e => e.1 <> e.2) (find_dependencies unicode_lower chunks entities).
Proof.
  unfold find_dependencies. induction chunks as [|c chunks IH]; simpl.
  - constructor.
  - apply Forall_app. split; [apply pairs_after_distinct|done].
Qed.

(** C9: in every graph that the Structure Extractor's [process] builds,
    whatever the chunks and the entity set, both ends of every edge are nodes
    of the graph and no edge joins an entity to itself. *)
Theorem dependency_graph_edges_sound (unicode_lower : str -> str)
    (extract_entities : list str -> list str)
    (weakly_connected_components : DiGraph -> list (list str))
    (chunks entities : list str) :
  let g := build_graph unicode_lower weakly_connected_components
             chunks entities in
  Forall (fun e => e.1 ∈ get (nodes g) /\ e.2 ∈ get (nodes g) /\ e.1 <> e.2)
         (get (edges g))
  /\ structure_process unicode_lower extract_entities
       weakly_connected_components chunks
     = Return {| dependency_graph :=
                   build_graph unicode_lower weakly_connected_components
                     chunks (extract_entities chunks) |}.
Proof.
  split; [|done]. unfold build_graph. simpl.
  set (deps := find_dependencies unicode_lower chunks entities).
  set (G0 := fold_left add_node entities empty_graph).
  assert (HG0 : graph_wf G0) by apply (add_nodes_from_wf entities), graph_wf_empty.
  pose proof (add_edges_from_wf deps G0 HG0) as HG.
  apply Forall_forall. intros e He.
  apply edge_view_edges in He; [|done].
  destruct (wf_ends _ HG e He) as [H1 H2]. split; [done|]. split; [done|].
  apply add_edges_from_edges in He as [He|He].
  - unfold G0 in He. change (fold_left add_node entities empty_graph)
      with (add_nodes_from empty_graph entities) in He.
    rewrite add_nodes_from_edges in He. inversion He.
  - pose proof (find_dependencies_distinct unicode_lower chunks entities) as Hd.
    rewrite Forall_forall in Hd. by apply Hd.
Qed.

(** ** [topological_sort]: Kahn's algorithm *)

Definition G_edge (G : DiGraph) : relation str :=
  fun u v => (u, v) ∈ G_edges G.

(** A cycle is a non-empty path from a node to itself. *)
Definition cyclic (G : DiGraph) : Prop := exists v, tc (G_edge G) v v.

Definition acyclic (G : DiGraph) : Prop := forall v, ~ tc (G_edge G) v v.

Definition out_edges (G : DiGraph) (u : str) : list (str * str) :=
  filter (fun e => e.1 = u) (G_edges G).

Lemma length_filter_impl {A} (P Q : A -> Prop) `{!forall x, Decision (P x)}
    `{!forall x, Decision (Q x)} (l : list A) :
  (forall x, P x -> Q x) ->
  (length (filter P l) <= length (filter Q l))%nat.
Proof.
  intros HPQ. induction l as [|x l IH]; [done|].
  rewrite !filter_cons.
  destruct (decide (P x)) as [HP|HP], (decide (Q x)) as [HQ|HQ]; simpl;
    [lia| |lia|lia].
  destruct HQ. by apply HPQ.
Qed.

Lemma filter_ext_in {A} (P Q : A -> Prop) `{!forall x, Decision (P x)}
    `{!forall x, Decision (Q x)} (l : list A) :
  (forall x, x ∈ l -> P x <-> Q x) -> filter P l = filter Q l.
Proof.
  induction l as [|x l IH]; intros Hext; [done|].
  rewrite !filter_cons.
  assert (Hx : P x <-> Q x) by (apply Hext; by left).
  rewrite IH by (intros y Hy; apply Hext; by right).
  destruct (decide (P x)), (decide (Q x)); tauto || done.
Qed.

Lemma length_filter_remove {A} `{!EqDecision A} (P : A -> Prop)
    `{!forall x, Decision (P x)} (l : list A) (x : A) :
  NoDup l -> x ∈ l -> P x ->
  length (filter P l) = S (length (filter (fun y => P y /\ y <> x) l)).
Proof.
  intros Hnd Hx HP. induction Hnd as [|y l Hy Hnd IH]; [inversion Hx|].
  rewrite !filter_cons. apply elem_of_cons in Hx as [<-|Hx].
  - destruct (decide (P x)); [|done].
    destruct (decide (P x /\ x <> x)) as [[_ ?]|_]; [done|]. simpl. f_equal.
    apply (f_equal length), filter_ext_in.
    intros z Hz. split; [|tauto]. intros HPz. split; [done|].
    by intros ->.
  - assert (y <> x) by (by intros ->).
    destruct (decide (P y)), (decide (P y /\ y <> x)); simpl;
      rewrite ?IH by done; tauto || done.
Qed.

Section Kahn.

Variable G : DiGraph.
Hypothesis HG : graph_wf G.

(** The in-degree that is left for [v] once the edges of [R] are relaxed. *)
Definition pending (R : list (str * str)) (v : str) : nat :=
  length (filter (fun e => e.2 = v /\ e ∉ R) (G_edges G)).

(** The [indegree_map] holds exactly the non-zero pending in-degrees. *)
Definition kahn_inv (R : list (str * str)) (indegree_map : gmap str Z) : Prop :=
  forall v, indegree_map !! v
            = match pending R v with
              | O => None
              | S _ => Some (Z.of_nat (pending R v))
              end.

Lemma pending_ext (R R' : list (str * str)) (v : str) :
  (forall e, e ∈ G_edges G -> e ∈ R <-> e ∈ R') -> pending R v = pending R' v.
Proof.
  intros Hext. unfold pending. f_equal. apply filter_ext_in.
  intros e He. by rewrite (Hext e He).
Qed.

Lemma pending_mono (R R' : list (str * str)) (v : str) :
  (forall e, e ∈ R -> e ∈ R') -> (pending R' v <= pending R v)%nat.
Proof.
  intros Hsub. apply length_filter_impl. intros e [? Hn]. split; [done|].
  intros ?. by apply Hn, Hsub.
Qed.

Lemma pending_cons_other (R : list (str * str)) (e : str * str) (v : str) :
  e.2 <> v -> pending (e :: R) v = pending R v.
Proof.
  intros Hne. unfold pending. f_equal. apply list_filter_iff.
  intros e'. rewrite not_elem_of_cons. split; [tauto|].
  intros [<- ?]. split; [done|]. split; [|done]. by intros ->.
Qed.

Lemma pending_cons_target (R : list (str * str)) (e : str * str) :
  e ∈ G_edges G -> e ∉ R -> pending R e.2 = S (pending (e :: R) e.2).
Proof.
  intros He Hn. unfold pending.
  rewrite (length_filter_remove _ _ e (wf_edges _ HG) He) by done.
  do 2 f_equal. apply list_filter_iff. intros e'. rewrite not_elem_of_cons.
  tauto.
Qed.

Lemma pending_pos (R : list (str * str)) (v : str) :
  (0 < pending R v)%nat -> exists e, e ∈ G_edges G /\ e.2 = v /\ e ∉ R.
Proof.
  unfold pending. intros Hpos.
  destruct (filter _ _) as [|e l] eqn:Hf; [simpl in Hpos; lia|].
  assert (He : e ∈ filter (fun e => e.2 = v /\ e ∉ R) (G_edges G)).
  { rewrite Hf. by left. }
  apply list_elem_of_filter in He as [[? ?] ?]. by exists e.
Qed.

Lemma pending_zero (R : list (str * str)) (v : str) (e : str * str) :
  pending R v = 0%nat -> e ∈ G_edges G -> e.2 = v -> e ∈ R.
Proof.
  unfold pending. intros Hz He Hv.
  destruct (decide (e ∈ R)) as [|Hn]; [done|].
  assert (Hin : e ∈ filter (fun e => e.2 = v /\ e ∉ R) (G_edges G)).
  { by apply list_elem_of_filter. }
  apply length_zero_iff_nil in Hz. rewrite Hz in Hin. inversion Hin.
Qed.

Lemma kahn_inv_ext (R R' : list (str * str)) (m : gmap str Z) :
  (forall e, e ∈ G_edges G -> e ∈ R <-> e ∈ R') -> kahn_inv R m -> kahn_inv R' m.
Proof.
  intros Hext Hinv v. rewrite (Hinv v). by rewrite (pending_ext R R' v).
Qed.

(** Relaxing one more edge: no [KeyError], and the invariant moves on. *)
Lemma relax_step (R : list (str * str)) (m : gmap str Z) (z : list str)
    (e : str * str) :
  kahn_inv R m -> e ∈ G_edges G -> e ∉ R ->
  exists m',
    relax (Return (m, z)) e.2
    = Return (m', match pending (e :: R) e.2 with
                  | O => z ++ [e.2]
                  | S _ => z
                  end)
    /\ kahn_inv (e :: R) m'.
Proof.
  intros Hinv He Hn. unfold relax. simpl.
  rewrite (Hinv e.2), (pending_cons_target R e He Hn).
  destruct (pending (e :: R) e.2) as [|p] eqn:Hp.
  - exists (delete e.2 m). split; [done|]. intros v.
    destruct (decide (e.2 = v)) as [<-|Hne].
    + by rewrite lookup_delete_eq, Hp.
    + rewrite lookup_delete_ne by done. rewrite (Hinv v).
      by rewrite pending_cons_other.
  - exists (<[e.2 := Z.of_nat (S p)]> m). split.
    + replace (Z.of_nat (S (S p)) - 1) with (Z.of_nat (S p)) by lia.
      assert ((Z.of_nat (S p) =? 0) = false) as -> by (apply Z.eqb_neq; lia).
      done.
    + intros v. destruct (decide (e.2 = v)) as [<-|Hne].
      * by rewrite lookup_insert_eq, Hp.
      * rewrite lookup_insert_ne by done. rewrite (Hinv v).
        by rewrite pending_cons_other.
Qed.

(** Relaxing a list of distinct, not yet relaxed edges. *)
Lemma relax_edges (L : list (str * str)) :
  forall (R : list (str * str)) (m : gmap str Z) (z : list str),
    kahn_inv R m -> NoDup L ->
    (forall e, e ∈ L -> e ∈ G_edges G /\ e ∉ R) ->
    exists m' z',
      fold_left relax L.*2 (Return (m, z)) = Return (m', z ++ z')
      /\ kahn_inv (L ++ R) m'
      /\ NoDup z'
      /\ forall v, v ∈ z' <->
                   (0 < pending R v)%nat /\ pending (L ++ R) v = 0%nat.
Proof.
  induction L as [|e L IH]; intros R m z Hinv Hnd HL.
  - exists m, []. simpl. rewrite app_nil_r.
    split; [done|]. split; [done|]. split; [constructor|].
    intros v. rewrite elem_of_nil. lia.
  - apply NoDup_cons in Hnd as [HeL Hnd].
    destruct (HL e) as [He HeR]; [by left|].
    destruct (relax_step R m z e Hinv He HeR) as (m1 & Hstep & Hinv1).
    destruct (IH (e :: R) m1
                (match pending (e :: R) e.2 with
                 | O => z ++ [e.2]
                 | S _ => z
                 end) Hinv1 Hnd) as (m' & z' & Hfold & Hinv' & Hndz & Hz').
    { intros e' He'. destruct (HL e') as [? ?]; [by right|].
      split; [done|]. apply not_elem_of_cons. split; [|done]. by intros ->. }
    assert (Hperm : forall v, pending (L ++ e :: R) v = pending ((e :: L) ++ R) v).
    { intros v. apply pending_ext. intros e' _. simpl.
      rewrite !elem_of_app, !elem_of_cons, ?elem_of_app. tauto. }
    assert (Hmono : forall v, (pending (e :: R) v <= pending R v)%nat).
    { intros v. apply pending_mono. intros e'. by right. }
    assert (Hmono' : forall v, (pending ((e :: L) ++ R) v
                                <= pending (e :: R) v)%nat).
    { intros v. apply pending_mono. intros e'. simpl.
      rewrite !elem_of_cons, ?elem_of_app. tauto. }
    pose proof (pending_cons_target R e He HeR) as Htarget.
    assert (Hinv'' : kahn_inv ((e :: L) ++ R) m').
    { eapply kahn_inv_ext; [|exact Hinv']. intros e' _. simpl.
      rewrite !elem_of_app, !elem_of_cons, ?elem_of_app. tauto. }
    rewrite fmap_cons. cbn [fold_left]. rewrite Hstep.
    destruct (pending (e :: R) e.2) as [|p] eqn:Hp.
    + exists m', (e.2 :: z'). rewrite Hfold, <- app_assoc. split; [done|].
      split; [done|].
      split.
      * apply NoDup_cons. split; [|done]. rewrite Hz', Hp. lia.
      * intros v. rewrite elem_of_cons, Hz', Hperm.
        destruct (decide (e.2 = v)) as [<-|Hne].
        -- specialize (Hmono' e.2). rewrite Hp in Hmono'. split; [lia|tauto].
        -- rewrite (pending_cons_other R e v Hne). split; [|tauto].
           intros [?|?]; [by subst|done].
    + exists m', z'. rewrite Hfold. split; [done|].
      split; [done|].
      split; [done|]. intros v. rewrite Hz', Hperm.
      destruct (decide (e.2 = v)) as [<-|Hne].
      * rewrite Hp. lia.
      * by rewrite (pending_cons_other R e v Hne).
Qed.

Lemma fold_relax_raise (l : list str) (e : exc_class) :
  fold_left relax l (Raise e) = Raise e.
Proof. induction l as [|x l IH]; [done|]. simpl. exact IH. Qed.

(** A generation relaxes the edges that leave its nodes, node by node. *)
Lemma generation_relax (gen : list str)
    (st : result (gmap str Z * list str)) :
  (forall v, v ∈ gen -> v ∈ G_nodes G) ->
  fold_left (visit G) gen st
  = fold_left relax (flat_map (out_edges G) gen).*2 st.
Proof.
  revert st. induction gen as [|n gen IH]; intros st Hgen; [done|].
  cbn [fold_left flat_map]. rewrite fmap_app, fold_left_app.
  rewrite IH by (intros v Hv; apply Hgen; by right). f_equal.
  destruct st as [s|e]; simpl.
  - rewrite decide_True by (apply Hgen; by left). done.
  - by rewrite fold_relax_raise.
Qed.

Lemma out_edges_flat (gen : list str) (e : str * str) :
  e ∈ flat_map (out_edges G) gen <-> e ∈ G_edges G /\ e.1 ∈ gen.
Proof.
  rewrite list_elem_of_In, in_flat_map. setoid_rewrite <- list_elem_of_In.
  unfold out_edges. split.
  - intros (u & Hu & He). apply list_elem_of_filter in He as [<- He]. done.
  - intros [He Hin]. exists e.1. split; [done|]. by apply list_elem_of_filter.
Qed.

Lemma out_edges_NoDup (gen : list str) :
  NoDup gen -> NoDup (flat_map (out_edges G) gen).
Proof.
  induction 1 as [|n gen Hn Hnd IH]; simpl; [constructor|].
  apply NoDup_app. split; [apply NoDup_filter, (wf_edges _ HG)|].
  split; [|done]. intros e He Hin.
  apply list_elem_of_filter in He as [<- _].
  apply out_edges_flat in Hin as [_ Hin]. done.
Qed.

(** *** Cycles *)

Lemma tc_last (x v : str) :
  tc (G_edge G) x v -> exists u, G_edge G u v /\ (x = u \/ tc (G_edge G) x u).
Proof.
  induction 1 as [x v Hxv|x y v Hxy _ (u & Huv & Hyu)].
  - exists x. split; [done|by left].
  - exists u. split; [done|]. right. destruct Hyu as [<-|Hyu].
    + by apply tc_once.
    + by eapply tc_l.
Qed.

(** A node on a cycle has a predecessor on a cycle. *)
Lemma cycle_pred (v : str) :
  tc (G_edge G) v v -> exists u, G_edge G u v /\ tc (G_edge G) u u.
Proof.
  intros (u & Huv & Hvu)%tc_last. exists u. split; [done|].
  destruct Hvu as [<-|Hvu]; [by apply tc_once|]. by eapply tc_l.
Qed.

(** Consecutive elements of a chain are joined by edges. *)
Fixpoint chain (l : list str) : Prop :=
  match l with
  | u :: (v :: _) as t => G_edge G u v /\ chain t
  | _ => True
  end.

Lemma chain_tail (u : str) (t : list str) : chain (u :: t) -> chain t.
Proof. destruct t; simpl; tauto. Qed.

Lemma chain_reach (l : list str) :
  forall v x, chain (v :: l) -> x ∈ l -> tc (G_edge G) v x.
Proof.
  induction l as [|w l IH]; intros v x Hc Hx; [inversion Hx|].
  destruct Hc as [Hvw Hc]. apply elem_of_cons in Hx as [->|Hx].
  - by apply tc_once.
  - eapply tc_l; [exact Hvw|]. by apply IH.
Qed.

Lemma chain_NoDup_or_cyclic (l : list str) : chain l -> NoDup l \/ cyclic G.
Proof.
  induction l as [|u t IH]; intros Hc; [left; constructor|].
  destruct (IH (chain_tail _ _ Hc)) as [Hnd|?]; [|by right].
  destruct (decide (u ∈ t)) as [Hin|Hin].
  - right. exists u. by apply (chain_reach t).
  - left. by constructor.
Qed.

(** A non-empty set of nodes in which every node has a predecessor holds a
    cycle. *)
Lemma pred_closed_cyclic (S : str -> Prop) :
  (exists v, S v) ->
  (forall v, S v -> v ∈ G_nodes G) ->
  (forall v, S v -> exists u, S u /\ G_edge G u v) ->
  cyclic G.
Proof.
  intros [v0 Hv0] HSV Hpred.
  assert (Hlong : forall n, exists l,
             chain l /\ length l = Datatypes.S n /\ Forall S l).
  { induction n as [|n (l & Hc & Hlen & HS)].
    - exists [v0]. split; [done|]. split; [done|]. by apply Forall_singleton.
    - destruct l as [|h t]; [done|].
      apply Forall_cons_1 in HS as HS'. destruct HS' as [Hh _].
      destruct (Hpred h Hh) as (u & Hu & Huh).
      exists (u :: h :: t). split; [by split|]. split; [simpl in *; lia|].
      by constructor. }
  destruct (Hlong (length (G_nodes G))) as (l & Hc & Hlen & HS).
  destruct (chain_NoDup_or_cyclic l Hc) as [Hnd|?]; [|done].
  assert (Hsub : l ⊆+ G_nodes G).
  { apply NoDup_submseteq; [done|]. intros x Hx. apply HSV.
    rewrite Forall_forall in HS. by apply HS. }
  apply submseteq_length in Hsub. lia.
Qed.

(** *** The loop over the generations *)

(** At the head of the [while] loop, with the nodes [D] of the earlier
    generations and the generation [zero] about to be yielded. *)
Record loop_inv (D zero : list str) (m : gmap str Z) : Prop := {
  li_map : kahn_inv (flat_map (out_edges G) D) m;
  li_nodup : NoDup (D ++ zero);
  li_nodes : forall v, v ∈ D ++ zero -> v ∈ G_nodes G;
  li_zero : forall v, v ∈ G_nodes G ->
                      v ∈ D ++ zero
                      <-> pending (flat_map (out_edges G) D) v = 0%nat;
  li_acyc : forall v, v ∈ D ++ zero -> ~ tc (G_edge G) v v
}.

Lemma pending_pos_node (R : list (str * str)) (v : str) :
  (0 < pending R v)%nat -> v ∈ G_nodes G.
Proof.
  intros (e & He & <- & _)%pending_pos. by apply (wf_ends _ HG).
Qed.

Lemma generation_inv (D zero : list str) (m : gmap str Z) :
  loop_inv D zero m ->
  exists m' zero',
    generation G m zero = Return (m', zero')
    /\ loop_inv (D ++ zero) zero' m'.
Proof.
  intros [Hmap Hnd Hnodes Hzero Hacyc].
  set (R := flat_map (out_edges G) D) in *.
  set (L := flat_map (out_edges G) zero).
  apply NoDup_app in Hnd as Hnd'. destruct Hnd' as (HndD & Hdisj & Hndz).
  destruct (relax_edges L R m [] Hmap) as (m' & z' & Hfold & Hmap' & Hndz' & Hz').
  { by apply out_edges_NoDup. }
  { intros e [He Hin]%out_edges_flat. split; [done|].
    intros [_ HinD]%out_edges_flat. by apply (Hdisj e.1). }
  assert (Hext : forall e, e ∈ G_edges G ->
                           e ∈ L ++ R <-> e ∈ flat_map (out_edges G) (D ++ zero)).
  { intros e _. rewrite flat_map_app. fold R L. rewrite !elem_of_app. tauto. }
  assert (Hpend : forall v, pending (L ++ R) v
                            = pending (flat_map (out_edges G) (D ++ zero)) v).
  { intros v. by apply pending_ext. }
  assert (Hmono : forall v, (pending (L ++ R) v <= pending R v)%nat).
  { intros v. apply pending_mono. intros e He. apply elem_of_app. by right. }
  exists m', z'. split.
  { unfold generation. rewrite generation_relax; [exact Hfold|].
    intros v Hv. apply Hnodes, elem_of_app. by right. }
  assert (Hz'nodes : forall v, v ∈ z' -> v ∈ G_nodes G).
  { intros v [Hpos _]%Hz'. by eapply pending_pos_node. }
  assert (Hz'new : forall v, v ∈ z' -> v ∉ D ++ zero).
  { intros v Hv Hin. pose proof (Hz'nodes v Hv) as HvV.
    apply Hz' in Hv as [Hpos _]. apply (Hzero v HvV) in Hin. lia. }
  split.
  - by eapply kahn_inv_ext.
  - apply NoDup_app. split; [done|]. split; [|done].
    intros v Hin Hv. by apply (Hz'new v).
  - intros v [Hv|Hv]%elem_of_app; [by apply Hnodes|by apply Hz'nodes].
  - intros v HvV. rewrite <- Hpend, elem_of_app, Hz', (Hzero v HvV).
    specialize (Hmono v). lia.
  - intros v Hv Hcyc.
    apply elem_of_app in Hv as [Hv|Hv]; [by apply (Hacyc v)|].
    apply Hz' in Hv as [_ Hv0].
    destruct (cycle_pred v Hcyc) as (u & Huv & Hu).
    pose proof (pending_zero _ v (u, v) Hv0 Huv eq_refl) as Hin.
    apply Hext in Hin; [|done]. apply out_edges_flat in Hin as [_ Hin].
    by apply (Hacyc u).
Qed.

(** What the sort is to return: an ordering of all the nodes when the graph
    is acyclic, [NetworkXUnfeasible] when it has a cycle. *)
Definition sort_outcome (D : list str) (r : result (list str)) : Prop :=
  match r with
  | Return rest => D ++ rest ≡ₚ G_nodes G /\ acyclic G
  | Raise e => e = NetworkXUnfeasible /\ cyclic G
  end.

(** The check after the loop. *)
Lemma final_check (D : list str) (m : gmap str Z) :
  loop_inv D [] m ->
  sort_outcome D (if decide (m = ∅) then Return []
                  else Raise NetworkXUnfeasible).
Proof.
  intros [Hmap Hnd Hnodes Hzero Hacyc]. rewrite app_nil_r in *.
  set (R := flat_map (out_edges G) D) in *.
  destruct (decide (m = ∅)) as [->|Hne]; simpl.
  - assert (Hall : forall v, v ∈ G_nodes G -> v ∈ D).
    { intros v Hv. apply (Hzero v Hv). specialize (Hmap v).
      rewrite lookup_empty in Hmap. by destruct (pending R v). }
    split.
    + rewrite app_nil_r. apply NoDup_Permutation; [done|apply (wf_nodes _ HG)|].
      intros v. split; [apply Hnodes|apply Hall].
    + intros v Hcyc. apply (Hacyc v); [|done]. apply Hall.
      destruct (cycle_pred v Hcyc) as (u & Huv & _).
      by apply (wf_ends _ HG (u, v)).
  - split; [done|].
    apply (pred_closed_cyclic (fun v => (0 < pending R v)%nat)).
    + apply map_choose in Hne as (v & d & Hv). exists v.
      rewrite (Hmap v) in Hv. destruct (pending R v); [done|lia].
    + intros v. apply pending_pos_node.
    + intros v (e & He & <- & HeR)%pending_pos.
      assert (HuD : e.1 ∉ D).
      { intros Hin. apply HeR. by apply out_edges_flat. }
      assert (HuV : e.1 ∈ G_nodes G) by (by apply (wf_ends _ HG)).
      exists e.1. split.
      * rewrite (Hzero _ HuV) in HuD. lia.
      * unfold G_edge. by destruct e.
Qed.

(** The loop ends with enough fuel, and with the right outcome. *)
Lemma generations_spec (fuel : nat) :
  forall (D zero : list str) (m : gmap str Z),
    loop_inv D zero m ->
    (length (G_nodes G) < fuel + length D)%nat ->
    exists r, generations fuel G m zero = Some r /\ sort_outcome D r.
Proof.
  induction fuel as [|fuel IH]; intros D zero m Hinv Hfuel.
  - assert (Hsub : D ++ zero ⊆+ G_nodes G).
    { apply NoDup_submseteq; [apply Hinv|apply Hinv]. }
    apply submseteq_length in Hsub. rewrite length_app in Hsub. lia.
  - destruct zero as [|z zero].
    + eexists. split; [done|]. by apply final_check.
    + destruct (generation_inv D (z :: zero) m Hinv) as (m' & zero' & Hgen & Hinv').
      cbn [generations]. rewrite Hgen.
      destruct (IH (D ++ z :: zero) zero' m' Hinv') as (r & Hr & Hout).
      { rewrite length_app. simpl. lia. }
      rewrite Hr. destruct r as [rest|e]; eexists; (split; [done|]).
      * destruct Hout as [Hperm Hacyc]. split; [|done].
        rewrite <- app_assoc in Hperm. exact Hperm.
      * done.
Qed.

Lemma in_degree_pending (v : str) : in_degree G v = Z.of_nat (pending [] v).
Proof.
  unfold in_degree, pending, len. do 2 f_equal. apply list_filter_iff.
  intros e. rewrite elem_of_nil. tauto.
Qed.

Lemma initial_indegree_lookup (ns : list str) (v : str) :
  (list_to_map
     (omap (fun v => let d := in_degree G v in
                     if 0 <? d then Some (v, d) else None) ns)
   : gmap str Z) !! v
  = if decide (v ∈ ns /\ 0 < in_degree G v) then Some (in_degree G v) else None.
Proof.
  induction ns as [|n ns IH].
  - rewrite decide_False by (intros [H _]; inversion H). apply lookup_empty.
  - assert (Hin : (v ∈ n :: ns /\ 0 < in_degree G v)
                  <-> (n = v /\ 0 < in_degree G n)
                      \/ (v ∈ ns /\ 0 < in_degree G v)).
    { rewrite elem_of_cons. split.
      - intros [[->|?] ?]; [by left|by right].
      - intros [[-> ?]|[? ?]]; [by split; [left|]|by split; [right|]]. }
    rewrite (decide_ext _ _ _ _ Hin). clear Hin.
    cbv zeta in IH. cbn [omap list_omap]. cbv zeta.
    destruct (0 <? in_degree G n) eqn:Hd.
    + rewrite list_to_map_cons. destruct (decide (n = v)) as [->|Hne].
      * rewrite lookup_insert_eq, decide_True; [done|]. left. split; [done|lia].
      * rewrite lookup_insert_ne, IH by done. apply decide_ext. tauto.
    + rewrite IH. apply decide_ext. split; [tauto|].
      intros [[-> ?]|?]; [lia|done].
Qed.

Lemma initial_inv :
  loop_inv [] (initial_zero_indegree G) (initial_indegree_map G).
Proof.
  assert (Hzero : forall v, v ∈ initial_zero_indegree G
                            <-> v ∈ G_nodes G /\ pending [] v = 0%nat).
  { intros v. unfold initial_zero_indegree.
    rewrite list_elem_of_filter, in_degree_pending. split; intros [? ?]; split; try done; lia. }
  split; simpl.
  - intros v. unfold initial_indegree_map. rewrite initial_indegree_lookup.
    rewrite in_degree_pending. destruct (pending [] v) as [|p] eqn:Hp.
    + rewrite decide_False; [done|]. simpl. lia.
    + rewrite decide_True; [done|]. split; [|lia].
      apply (pending_pos_node []). lia.
  - apply NoDup_filter, (wf_nodes _ HG).
  - by intros v [? _]%Hzero.
  - intros v Hv. rewrite Hzero. tauto.
  - intros v [_ Hv]%Hzero Hcyc.
    destruct (cycle_pred v Hcyc) as (u & Huv & _).
    pose proof (pending_zero [] v (u, v) Hv Huv eq_refl) as Hin.
    inversion Hin.
Qed.

(** [topological_sort] never runs out of fuel; it returns a permutation of
    the nodes exactly when the graph is acyclic and raises
    [NetworkXUnfeasible] exactly when it has a cycle. *)
Lemma topological_sort_spec :
  match topological_sort G with
  | Return order => order ≡ₚ G_nodes G /\ acyclic G
  | Raise e => e = NetworkXUnfeasible /\ cyclic G
  end.
Proof.
  unfold topological_sort, topological_generations.
  destruct (generations_spec (S (length (G_nodes G))) [] _ _ initial_inv)
    as (r & -> & Hout); [simpl; lia|].
  exact Hout.
Qed.

End Kahn.

(** ** [build_execution_flow] *)

(** The graph that [build_execution_flow] hands to networkx. *)
Definition graph_of (g : graph_data) : DiGraph :=
  add_edges_from (add_nodes_from empty_graph (get (nodes g))) (get (edges g)).

(** A dependency graph: distinct nodes, and edges between nodes. *)
Record dependency_graph_wf (g : graph_data) : Prop := {
  dg_nodes : NoDup (get (nodes g));
  dg_edges : Forall (fun e => e.1 ∈ get (nodes g) /\ e.2 ∈ get (nodes g))
                    (get (edges g))
}.

Definition edge_of (g : graph_data) : relation str :=
  fun u v => (u, v) ∈ get (edges g).

(** The directed edges contain a cycle. *)
Definition has_cycle (g : graph_data) : Prop := exists v, tc (edge_of g) v v.

Definition is_acyclic (g : graph_data) : Prop :=
  forall v, ~ tc (edge_of g) v v.

Lemma tc_impl {A} (R R' : relation A) :
  (forall x y, R x y -> R' x y) -> forall x y, tc R x y -> tc R' x y.
Proof.
  intros HR x y. induction 1 as [x y H|x y z H _ IH].
  - by apply tc_once, HR.
  - eapply tc_l; [by apply HR|done].
Qed.

Lemma graph_of_wf (g : graph_data) : graph_wf (graph_of g).
Proof. apply add_edges_from_wf, add_nodes_from_wf, graph_wf_empty. Qed.

Lemma graph_of_edge (g : graph_data) (u v : str) :
  G_edge (graph_of g) u v <-> edge_of g u v.
Proof.
  unfold G_edge, edge_of, graph_of.
  rewrite add_edges_from_edges, add_nodes_from_edges. simpl.
  rewrite elem_of_nil. tauto.
Qed.

Lemma graph_of_nodes (g : graph_data) :
  dependency_graph_wf g -> G_nodes (graph_of g) = get (nodes g).
Proof.
  intros [Hnd Hes]. unfold graph_of.
  assert (Hns : G_nodes (add_nodes_from empty_graph (get (nodes g)))
                = get (nodes g)).
  { by rewrite add_nodes_from_fresh. }
  rewrite add_edges_from_same_nodes; [done|]. by rewrite Hns.
Qed.

Lemma graph_of_acyclic (g : graph_data) : is_acyclic g <-> acyclic (graph_of g).
Proof.
  split; intros H v Hc; apply (H v); revert Hc; apply tc_impl;
    intros x y; apply graph_of_edge.
Qed.

Lemma graph_of_cyclic (g : graph_data) : has_cycle g <-> cyclic (graph_of g).
Proof.
  split; intros [v Hc]; exists v; revert Hc; apply tc_impl;
    intros x y; apply graph_of_edge.
Qed.

Lemma build_execution_flow_unfold (g : graph_data) :
  get (nodes g) <> [] ->
  build_execution_flow g
  = (topological_order <-
       try_except (topological_sort (graph_of g)) NetworkXError
         (Return (take 10 (get (nodes g)))) ;;
     Return (imap (flow_step (len topological_order))
                  (take 8 topological_order))).
Proof.
  intros Hne. unfold build_execution_flow, graph_of.
  by destruct (get (nodes g)).
Qed.

(** On an acyclic dependency graph the flow follows an ordering of all the
    nodes. *)
Lemma build_execution_flow_acyclic (g : graph_data) :
  dependency_graph_wf g -> is_acyclic g -> get (nodes g) <> [] ->
  exists order,
    order ≡ₚ get (nodes g)
    /\ build_execution_flow g
       = Return (imap (flow_step (len order)) (take 8 order)).
Proof.
  intros Hwf Hacyc Hne. rewrite build_execution_flow_unfold by done.
  pose proof (topological_sort_spec (graph_of g) (graph_of_wf g)) as Hsort.
  destruct (topological_sort (graph_of g)) as [order|e].
  - destruct Hsort as [Hperm _]. exists order. split; [|done].
    by rewrite Hperm, graph_of_nodes.
  - destruct Hsort as [_ Hcyc]. apply graph_of_acyclic in Hacyc.
    destruct Hcyc as [v Hv]. by destruct (Hacyc v).
Qed.

(** On a graph with a cycle the [NetworkXUnfeasible] of the sort is not a
    [NetworkXError]: the handler does not run and the exception leaves
    [build_execution_flow]. *)
Lemma build_execution_flow_cyclic (g : graph_data) :
  has_cycle g -> get (nodes g) <> [] ->
  build_execution_flow g = Raise NetworkXUnfeasible.
Proof.
  intros Hcyc Hne. rewrite build_execution_flow_unfold by done.
  pose proof (topological_sort_spec (graph_of g) (graph_of_wf g)) as Hsort.
  destruct (topological_sort (graph_of g)) as [order|e].
  - destruct Hsort as [_ Hacyc]. apply graph_of_cyclic in Hcyc as [v Hv].
    by destruct (Hacyc v).
  - destruct Hsort as [-> _]. done.
Qed.

(** A single directed cycle among three nodes. *)
Definition three_cycle : graph_data :=
  {| nodes := Some [py "A"; py "B"; py "C"];
     edges := Some [(py "A", py "B"); (py "B", py "C"); (py "C", py "A")];
     components := Some [[py "A"; py "B"; py "C"]] |}.

(** C2 fails on the code: on the three-node cycle the sort raises
    [NetworkXUnfeasible], which [except nx.NetworkXError] does not catch, so
    [build_execution_flow] raises instead of returning the flow of the first
    ten nodes; only [run_agent_graph] catches it, with the generic summary. *)
Theorem build_execution_flow_cycle_raises :
  has_cycle three_cycle
  /\ issubclass NetworkXUnfeasible NetworkXError = false
  /\ build_execution_flow three_cycle = Raise NetworkXUnfeasible
  /\ build_execution_flow three_cycle
     <> Return [py "Initialize A"; py "Process B"; py "Return result from C"]
  /\ run_agent_graph (fun _ => Return {| chunks_of := []; embeddings_of := [] |})
       (fun _ => Return {| dependency_graph := three_cycle |})
       (flow_process (fun s => s)) []
     = Return generic_summary.
Proof.
  assert (Hcyc : has_cycle three_cycle).
  { exists (py "A"). unfold edge_of.
    eapply tc_l; [|eapply tc_l; [|apply tc_once]]; simpl;
      apply list_elem_of_In; simpl; eauto. }
  assert (Hraise : build_execution_flow three_cycle = Raise NetworkXUnfeasible).
  { by apply build_execution_flow_cyclic. }
  split; [done|]. split; [done|]. split; [done|]. split.
  - by rewrite Hraise.
  - unfold run_agent_graph, execute_pipeline, flow_process.
    cbn [bind dependency_graph]. rewrite Hraise. reflexivity.
Qed.

(** C6: on an acyclic dependency graph with between 2 and 8 nodes,
    [build_execution_flow] returns one step per node, along an ordering of
    the nodes: the first step is "Initialize " and the node, the last is
    "Return result from " and the node, every other is "Process " and the
    node. *)
Theorem build_execution_flow_small_acyclic (g : graph_data) :
  dependency_graph_wf g -> is_acyclic g ->
  (2 <= length (get (nodes g)) <= 8)%nat ->
  exists steps order,
    build_execution_flow g = Return steps
    /\ order ≡ₚ get (nodes g)
    /\ length steps = length (get (nodes g))
    /\ forall i node,
         order !! i = Some node ->
         steps !! i
         = Some (if decide (i = 0%nat) then py "Initialize " ++ node
                 else if decide (i = (length (get (nodes g)) - 1)%nat)
                      then py "Return result from " ++ node
                      else py "Process " ++ node).
Proof.
  intros Hwf Hacyc Hn.
  destruct (build_execution_flow_acyclic g Hwf Hacyc) as (order & Hperm & Hflow).
  { intros Hnil. rewrite Hnil in Hn. simpl in Hn. lia. }
  pose proof (Permutation_length Hperm) as Hlen.
  rewrite take_ge in Hflow by lia.
  exists (imap (flow_step (len order)) order), order.
  split; [done|]. split; [done|]. split; [by rewrite length_imap|].
  intros i node Hi. rewrite list_lookup_imap, Hi. simpl. f_equal.
  unfold flow_step, len. rewrite Hlen.
  destruct (decide (i = 0%nat)) as [->|H0]; [done|].
  assert ((Z.of_nat i =? 0) = false) as -> by (apply Z.eqb_neq; lia).
  destruct (decide (i = (length (get (nodes g)) - 1)%nat)) as [->|H1].
  - assert ((Z.of_nat (length (get (nodes g)) - 1)
             =? Z.of_nat (length (get (nodes g))) - 1) = true)
      as -> by (apply Z.eqb_eq; lia).
    done.
  - assert ((Z.of_nat i =? Z.of_nat (length (get (nodes g))) - 1) = false)
      as -> by (apply Z.eqb_neq; lia).
    done.
Qed.

Definition foo_bar_baz : graph_data :=
  {| nodes := Some [py "Foo"; py "Bar"; py "Baz"];
     edges := Some [(py "Foo", py "Bar"); (py "Bar", py "Baz")];
     components := Some [[py "Foo"; py "Bar"; py "Baz"]] |}.

Lemma foo_bar_baz_wf : dependency_graph_wf foo_bar_baz.
Proof.
  split; simpl.
  - apply (bool_decide_unpack _). by vm_compute.
  - repeat constructor; simpl; apply (bool_decide_unpack _); by vm_compute.
Defined.

Lemma foo_bar_baz_acyclic : is_acyclic foo_bar_baz.
Proof.
  apply graph_of_acyclic.
  pose proof (topological_sort_spec (graph_of foo_bar_baz)
                (graph_of_wf foo_bar_baz)) as Hsort.
  assert (Hrun : topological_sort (graph_of foo_bar_baz)
                 = Return [py "Foo"; py "Bar"; py "Baz"])
    by (vm_compute; reflexivity).
  rewrite Hrun in Hsort. apply Hsort.
Defined.

Lemma build_execution_flow_small_acyclic_witness :
  exists steps order,
    build_execution_flow foo_bar_baz = Return steps
    /\ order ≡ₚ get (nodes foo_bar_baz)
    /\ length steps = length (get (nodes foo_bar_baz))
    /\ forall i node,
         order !! i = Some node ->
         steps !! i
         = Some (if decide (i = 0%nat) then py "Initialize " ++ node
                 else if decide (i = (length (get (nodes foo_bar_baz)) - 1)%nat)
                      then py "Return result from " ++ node
                      else py "Process " ++ node).
Proof.
  apply (build_execution_flow_small_acyclic foo_bar_baz
           foo_bar_baz_wf foo_bar_baz_acyclic).
  simpl. lia.
Defined.

Example build_execution_flow_foo_bar_baz :
  build_execution_flow foo_bar_baz
  = Return [py "Initialize Foo"; py "Process Bar"; py "Return result from Baz"].
Proof. vm_compute. reflexivity. Qed.

(** C10: on an acyclic dependency graph with more than 8 nodes,
    [build_execution_flow] returns exactly 8 steps, "Initialize " and then
    seven times "Process " along the first 8 nodes of an ordering of the
    nodes; no step starts with "Return result from". *)
Theorem build_execution_flow_truncated (g : graph_data) :
  dependency_graph_wf g -> is_acyclic g ->
  (8 < length (get (nodes g)))%nat ->
  exists steps order,
    build_execution_flow g = Return steps
    /\ order ≡ₚ get (nodes g)
    /\ length steps = 8%nat
    /\ Forall (fun s => startswith s (py "Return result from") = false) steps
    /\ forall i node,
         (i < 8)%nat -> order !! i = Some node ->
         steps !! i
         = Some (if decide (i = 0%nat) then py "Initialize " ++ node
                 else py "Process " ++ node).
Proof.
  intros Hwf Hacyc Hn.
  destruct (build_execution_flow_acyclic g Hwf Hacyc) as (order & Hperm & Hflow).
  { intros Hnil. rewrite Hnil in Hn. simpl in Hn. lia. }
  pose proof (Permutation_length Hperm) as Hlen.
  exists (imap (flow_step (len order)) (take 8 order)), order.
  assert (Hstep : forall i node,
             (i < 8)%nat ->
             flow_step (len order) i node
             = if decide (i = 0%nat) then py "Initialize " ++ node
               else py "Process " ++ node).
  { intros i node Hi. unfold flow_step, len.
    destruct (decide (i = 0%nat)) as [->|H0]; [done|].
    assert ((Z.of_nat i =? 0) = false) as -> by (apply Z.eqb_neq; lia).
    assert ((Z.of_nat i =? Z.of_nat (length order) - 1) = false) as ->
      by (apply Z.eqb_neq; lia).
    done. }
  split; [done|]. split; [done|]. split; [|split].
  - rewrite length_imap, length_take. lia.
  - apply Forall_forall. intros s Hs.
    apply list_elem_of_lookup in Hs as [i Hi].
    rewrite list_lookup_imap in Hi.
    destruct (take 8 order !! i) as [node|] eqn:Hnode; [|done].
    assert (Hi8 : (i < 8)%nat).
    { apply lookup_lt_Some in Hnode. rewrite length_take in Hnode. lia. }
    simpl in Hi. injection Hi as <-. rewrite (Hstep i node Hi8).
    by destruct (decide (i = 0%nat)).
  - intros i node Hi Hnode. rewrite list_lookup_imap, lookup_take_lt by done.
    rewrite Hnode. simpl. by rewrite Hstep.
Qed.

Definition nine_nodes : graph_data :=
  {| nodes := Some [py "a"; py "b"; py "c"; py "d"; py "e"; py "f"; py "g";
                    py "h"; py "i"];
     edges := Some [(py "c", py "a"); (py "a", py "b")];
     components := None |}.

Lemma nine_nodes_wf : dependency_graph_wf nine_nodes.
Proof.
  split; simpl.
  - apply (bool_decide_unpack _). by vm_compute.
  - repeat constructor; simpl; apply (bool_decide_unpack _); by vm_compute.
Defined.

Lemma nine_nodes_acyclic : is_acyclic nine_nodes.
Proof.
  apply graph_of_acyclic.
  pose proof (topological_sort_spec (graph_of nine_nodes)
                (graph_of_wf nine_nodes)) as Hsort.
  assert (Hrun : topological_sort (graph_of nine_nodes)
                 = Return [py "c"; py "d"; py "e"; py "f"; py "g"; py "h";
                           py "i"; py "a"; py "b"])
    by (vm_compute; reflexivity).
  rewrite Hrun in Hsort. apply Hsort.
Defined.

Lemma build_execution_flow_truncated_witness :
  exists steps order,
    build_execution_flow nine_nodes = Return steps
    /\ order ≡ₚ get (nodes nine_nodes)
    /\ length steps = 8%nat
    /\ Forall (fun s => startswith s (py "Return result from") = false) steps
    /\ forall i node,
         (i < 8)%nat -> order !! i = Some node ->
         steps !! i
         = Some (if decide (i = 0%nat) then py "Initialize " ++ node
                 else py "Process " ++ node).
Proof.
  apply (build_execution_flow_truncated nine_nodes
           nine_nodes_wf nine_nodes_acyclic).
  simpl. lia.
Defined.

Example build_execution_flow_nine_nodes :
  build_execution_flow nine_nodes
  = Return [py "Initialize c"; py "Process d"; py "Process e"; py "Process f";
            py "Process g"; py "Process h"; py "Process i"; py "Process a"].
Proof. vm_compute. reflexivity. Qed.

(** * Further properties *)

(** ** [chunk_text]: chunk sizes *)

(** The running counter of a word list: [len(word) + 1] per word. *)
Definition sum_sizes (ws : list str) : Z :=
  foldr (fun w acc => len w + 1 + acc) 0 ws.

Lemma sum_sizes_snoc (ws : list str) (w : str) :
  sum_sizes (ws ++ [w]) = sum_sizes ws + (len w + 1).
Proof. induction ws as [|x ws IH]; simpl; [lia|]. rewrite IH. lia. Qed.

Lemma sum_sizes_nonneg (ws : list str) : 0 <= sum_sizes ws.
Proof. induction ws as [|x ws IH]; simpl; unfold len in *; lia. Qed.

Lemma len_app {A} (l k : list A) : len (l ++ k) = len l + len k.
Proof. unfold len. rewrite length_app. lia. Qed.

(** A joined chunk is one shorter than its counter. *)
Lemma len_join (ws : list str) :
  ws <> [] -> len (join (py " ") ws) + 1 = sum_sizes ws.
Proof.
  induction ws as [|w ws IH]; [done|]. intros _.
  destruct ws as [|w' ws]; [simpl; lia|].
  change (join (py " ") (w :: w' :: ws))
    with (w ++ py " " ++ join (py " ") (w' :: ws)).
  rewrite !len_app. change (sum_sizes (w :: w' :: ws))
    with (len w + 1 + sum_sizes (w' :: ws)).
  rewrite <- IH by done. change (len (py " ")) with 1. lia.
Qed.

(** A chunk closed by the size test: it joins words, reaches the chunk size
    with its last word, and not before. *)
Definition closed_chunk (chunk_size : Z) (c : str) : Prop :=
  exists ws w,
    Forall word (ws ++ [w])
    /\ c = join (py " ") (ws ++ [w])
    /\ chunk_size <= len c + 1
    /\ (ws <> [] -> len (join (py " ") ws) + 1 < chunk_size).

Record size_inv (chunk_size : Z) (st : chunker) : Prop := {
  si_size : current_size st = sum_sizes (current_chunk st);
  si_open : current_chunk st <> [] ->
            sum_sizes (current_chunk st) < chunk_size;
  si_words : Forall word (current_chunk st);
  si_closed : Forall (closed_chunk chunk_size) (chunks st)
}.

Lemma chunk_step_size_inv (chunk_size : Z) (st : chunker) (w : str) :
  word w -> size_inv chunk_size st ->
  size_inv chunk_size (chunk_step chunk_size st w).
Proof.
  intros Hw [Hsize Hopen Hwords Hclosed].
  assert (Hcc : Forall word (current_chunk st ++ [w])).
  { apply Forall_app. split; [done|]. by apply Forall_singleton. }
  assert (Hne : current_chunk st ++ [w] <> []) by (by destruct (current_chunk st)).
  unfold chunk_step. rewrite Hsize, <- sum_sizes_snoc.
  destruct (sum_sizes (current_chunk st ++ [w]) >=? chunk_size) eqn:Hge.
  - constructor; simpl; [done|done|constructor|].
    apply Forall_app. split; [done|]. apply Forall_singleton.
    exists (current_chunk st), w. split; [done|]. split; [done|].
    rewrite len_join by done. split; [lia|].
    intros Hcur. rewrite len_join by done. by apply Hopen.
  - constructor; simpl; [done| |done|done]. intros _. lia.
Qed.

Lemma chunk_loop_size_inv (chunk_size : Z) (ws : list str) (st : chunker) :
  Forall word ws -> size_inv chunk_size st ->
  size_inv chunk_size (fold_left (chunk_step chunk_size) ws st).
Proof.
  intros Hws. revert st.
  induction Hws as [|w ws Hw _ IH]; intros st Hinv; simpl; [done|].
  by apply IH, chunk_step_size_inv.
Qed.

Lemma size_inv_init (chunk_size : Z) :
  size_inv chunk_size
    {| chunks := []; current_chunk := []; current_size := 0 |}.
Proof. by constructor; simpl. Qed.

(** The chunks of [chunk_text] are closed chunks, except that the words left
    at the end form one last chunk that stays below the chunk size. *)
Lemma chunk_text_closed (text : str) (chunk_size : Z) :
  exists closed last,
    chunk_text text chunk_size = closed ++ last
    /\ Forall (closed_chunk chunk_size) closed
    /\ (last = []
        \/ exists ws, ws <> [] /\ Forall word ws
                      /\ last = [join (py " ") ws]
                      /\ len (join (py " ") ws) + 1 < chunk_size).
Proof.
  unfold chunk_text.
  pose proof (chunk_loop_size_inv chunk_size (split text) _
                (split_words text) (size_inv_init chunk_size))
    as [Hsize Hopen Hwords Hclosed].
  destruct (current_chunk _) as [|w cc] eqn:Hcc.
  - eexists _, []. rewrite app_nil_r. split; [done|]. split; [done|by left].
  - eexists _, [_]. split; [done|]. split; [done|]. right.
    exists (w :: cc). split; [done|]. split; [done|]. split; [done|].
    rewrite len_join by done. by apply Hopen.
Qed.

(** X1: every chunk of [chunk_text] but the last reaches the chunk size:
    its length plus one is at least [chunk_size]. *)
Theorem chunk_text_all_but_last_full (text : str) (chunk_size : Z) (i : nat)
    (c : str) :
  chunk_text text chunk_size !! i = Some c ->
  (S i < length (chunk_text text chunk_size))%nat ->
  chunk_size <= len c + 1.
Proof.
  intros Hi Hlast.
  destruct (chunk_text_closed text chunk_size)
    as (closed & last & Heq & Hclosed & Hl).
  rewrite Heq in Hi, Hlast. rewrite length_app in Hlast.
  assert (Hlen : (length last <= 1)%nat).
  { destruct Hl as [->|(ws & _ & _ & -> & _)]; simpl; lia. }
  rewrite lookup_app_l in Hi by lia.
  rewrite Forall_forall in Hclosed.
  destruct (Hclosed c) as (ws & w & _ & _ & Hsize & _); [|done].
  by eapply list_elem_of_lookup_2.
Qed.

Lemma chunk_text_all_but_last_full_witness :
  8 <= len (py "hello world") + 1.
Proof.
  apply (chunk_text_all_but_last_full (py "hello  world foo bar baz") 8 0).
  - vm_compute. reflexivity.
  - vm_compute. lia.
Defined.

(** X2: a chunk closes at the first word that makes it reach the chunk
    size: every chunk joins words of the text, and the chunk without its last
    word is below the chunk size. *)
Theorem chunk_text_closes_early (text : str) (chunk_size : Z) (c : str) :
  c ∈ chunk_text text chunk_size ->
  exists ws w,
    Forall word (ws ++ [w])
    /\ c = join (py " ") (ws ++ [w])
    /\ (ws <> [] -> len (join (py " ") ws) + 1 < chunk_size).
Proof.
  intros Hc.
  destruct (chunk_text_closed text chunk_size)
    as (closed & last & Heq & Hclosed & Hl).
  rewrite Heq in Hc. apply elem_of_app in Hc as [Hc|Hc].
  - rewrite Forall_forall in Hclosed.
    destruct (Hclosed c Hc) as (ws & w & Hws & -> & _ & Hmin). by exists ws, w.
  - destruct Hl as [->|(ws & Hne & Hws & -> & Hsmall)]; [inversion Hc|].
    apply list_elem_of_singleton in Hc as ->.
    destruct (exists_last Hne) as (ws' & w & ->).
    exists ws', w. split; [done|]. split; [done|]. intros Hne'.
    pose proof (len_join ws' Hne') as H1.
    pose proof (len_join (ws' ++ [w]) Hne) as H2.
    rewrite sum_sizes_snoc in H2. unfold len in *. lia.
Qed.

Lemma chunk_text_closes_early_witness :
  exists ws w,
    Forall word (ws ++ [w])
    /\ py "foo bar baz" = join (py " ") (ws ++ [w])
    /\ (ws <> [] -> len (join (py " ") ws) + 1 < 10).
Proof.
  apply (chunk_text_closes_early (py "hello  world foo bar baz") 10).
  apply list_elem_of_In. vm_compute. tauto.
Defined.

(** ** [chunk_text]: rejoining, and the two extremes of the chunk size *)

Lemma split_from_space (a b cur : str) (c : N) :
  isspace c = true ->
  split_from (a ++ c :: b) cur = split_from a cur ++ split b.
Proof.
  intros Hc. revert cur. induction a as [|x a IH]; intros cur; simpl.
  - rewrite Hc. by destruct cur.
  - destruct (isspace x); [|apply IH].
    destruct cur; rewrite IH; done.
Qed.

Lemma split_join_any (l : list str) :
  split (join (py " ") l) = flat_map split l.
Proof.
  induction l as [|c l IH]; [done|].
  destruct l as [|c' l]; [simpl; by rewrite app_nil_r|].
  change (join (py " ") (c :: c' :: l))
    with (c ++ 32%N :: join (py " ") (c' :: l)).
  unfold split at 1. rewrite split_from_space by done.
  rewrite IH. done.
Qed.

(** X3: the chunks of [chunk_text], joined with single spaces and split
    again on whitespace, give back the words of the text. *)
Theorem chunk_text_rejoin (text : str) (chunk_size : Z) :
  split (join (py " ") (chunk_text text chunk_size)) = split text.
Proof. rewrite split_join_any. apply chunk_text_spec. Qed.

Lemma chunk_loop_each_word (chunk_size : Z) (ws acc : list str) :
  chunk_size <= 2 -> Forall word ws ->
  fold_left (chunk_step chunk_size) ws
    {| chunks := acc; current_chunk := []; current_size := 0 |}
  = {| chunks := acc ++ ws; current_chunk := []; current_size := 0 |}.
Proof.
  intros Hsmall Hws. revert acc.
  induction Hws as [|w ws [Hne _] _ IH]; intros acc; simpl.
  - by rewrite app_nil_r.
  - unfold chunk_step at 2. simpl.
    assert ((0 + (len w + 1) >=? chunk_size) = true) as ->.
    { destruct w as [|c w]; [done|]. unfold len. cbn [length].
      rewrite Z.geb_leb. apply Z.leb_le. lia. }
    rewrite IH, <- app_assoc. done.
Qed.

(** X4: with a chunk size of at most 2 every word is a chunk of its own. *)
Theorem chunk_text_one_word_per_chunk (text : str) (chunk_size : Z) :
  chunk_size <= 2 -> chunk_text text chunk_size = split text.
Proof.
  intros Hsmall. unfold chunk_text.
  by rewrite (chunk_loop_each_word chunk_size (split text) [] Hsmall
                (split_words text)).
Qed.

Lemma chunk_text_one_word_per_chunk_witness :
  chunk_text (py " to be  or not ") 2 = [py "to"; py "be"; py "or"; py "not"].
Proof.
  apply (chunk_text_one_word_per_chunk (py " to be  or not ") 2). lia.
Defined.

Lemma chunk_loop_all_fit (chunk_size : Z) (ws cc : list str) :
  sum_sizes (cc ++ ws) < chunk_size ->
  fold_left (chunk_step chunk_size) ws
    {| chunks := []; current_chunk := cc; current_size := sum_sizes cc |}
  = {| chunks := []; current_chunk := cc ++ ws;
       current_size := sum_sizes (cc ++ ws) |}.
Proof.
  revert cc. induction ws as [|w ws IH]; intros cc Hfit; simpl.
  - by rewrite app_nil_r.
  - replace (cc ++ w :: ws) with ((cc ++ [w]) ++ ws) in *
      by (by rewrite <- app_assoc).
    assert (Hle : sum_sizes (cc ++ [w]) <= sum_sizes ((cc ++ [w]) ++ ws)).
    { clear. induction (cc ++ [w]) as [|x l IH]; simpl.
      - apply sum_sizes_nonneg.
      - lia. }
    unfold chunk_step at 2. simpl. rewrite <- sum_sizes_snoc.
    assert ((sum_sizes (cc ++ [w]) >=? chunk_size) = false) as -> by lia.
    by apply IH.
Qed.

(** X5: a text with at least one word whose whitespace-normalised form,
    counted with one more character, stays below the chunk size is returned
    as a single chunk: its words joined by single spaces. *)
Theorem chunk_text_single_chunk (text : str) (chunk_size : Z) :
  split text <> [] ->
  len (join (py " ") (split text)) + 1 < chunk_size ->
  chunk_text text chunk_size = [join (py " ") (split text)].
Proof.
  intros Hne Hfit. rewrite len_join in Hfit by done.
  pose proof (chunk_loop_all_fit chunk_size (split text) [] Hfit) as Hloop.
  change (sum_sizes []) with 0 in Hloop.
  unfold chunk_text. cbv zeta. rewrite Hloop. simpl.
  by destruct (split text).
Qed.

Lemma chunk_text_single_chunk_witness :
  chunk_text_default (py "  def  main ( ) :	pass ") = [py "def main ( ) : pass"].
Proof.
  apply (chunk_text_single_chunk (py "  def  main ( ) :	pass ") 1000).
  - by vm_compute.
  - by vm_compute.
Defined.

(** ** [RepoFetcherAgent.process] *)

(** A lone surrogate, and a code point of the Unicode range. *)
Definition surrogate (c : N) : Prop := (55296 <= c <= 57343)%N.

Definition code_point (c : N) : Prop := (c < 1114112)%N.

Lemma encode_char_Return (c : N) :
  code_point c -> ~ surrogate c -> exists bs, encode_char c = Return bs.
Proof.
  unfold code_point, surrogate, encode_char. intros Hc Hs.
  repeat case_match; try (by eexists); lia.
Qed.

Lemma encode_char_Raise (c : N) :
  surrogate c -> encode_char c = Raise UnicodeEncodeError.
Proof.
  unfold surrogate, encode_char. intros Hs.
  repeat case_match; try done; lia.
Qed.

Lemma encode_char_exc (c : N) (e : exc_class) :
  encode_char c = Raise e -> e = UnicodeEncodeError.
Proof.
  unfold encode_char.
  destruct (Z.of_N c <? 128); [done|].
  destruct (Z.of_N c <? 2048); [done|].
  destruct (Z.of_N c <? 65536).
  - destruct (_ && _); [congruence|done].
  - destruct (Z.of_N c <? 1114112); [done|congruence].
Qed.

Lemma mapM_Return {A B} (f : A -> result B) (l : list A) :
  (forall x, x ∈ l -> exists y, f x = Return y) ->
  exists ys, mapM f l = Return ys /\ Forall2 (fun x y => f x = Return y) l ys.
Proof.
  induction l as [|x l IH]; intros Hl; simpl.
  - exists []. by split.
  - destruct (Hl x) as [y Hy]; [by left|].
    destruct IH as (ys & Hys & Hall); [intros x' Hx'; apply Hl; by right|].
    exists (y :: ys). rewrite Hy, Hys. split; [done|]. by constructor.
Qed.

Lemma mapM_Raise {A B} (f : A -> result B) (l : list A) (x : A)
    (e : exc_class) :
  x ∈ l -> f x = Raise e ->
  exists x' e', x' ∈ l /\ f x' = Raise e' /\ mapM f l = Raise e'.
Proof.
  induction l as [|a l IH]; intros Hx Hfx; [inversion Hx|]. simpl.
  destruct (f a) as [b|e'] eqn:Hfa.
  - apply elem_of_cons in Hx as [->|Hx]; [congruence|].
    destruct (IH Hx Hfx) as (x' & e' & Hx' & Hfx' & Hm).
    exists x', e'. rewrite Hm. split; [by right|done].
  - exists a, e'. split; [by left|done].
Qed.

Lemma encode_Return (s : str) :
  Forall (fun c => code_point c /\ ~ surrogate c) s ->
  exists bs, encode s = Return bs.
Proof.
  intros Hs. unfold encode.
  destruct (mapM_Return encode_char s) as (bss & -> & _); [|by eexists].
  intros c Hc. rewrite Forall_forall in Hs.
  destruct (Hs c Hc). by apply encode_char_Return.
Qed.

Lemma encode_Raise (s : str) :
  Exists surrogate s -> encode s = Raise UnicodeEncodeError.
Proof.
  intros (c & Hc & Hs)%Exists_exists. unfold encode.
  destruct (mapM_Raise encode_char s c _ Hc (encode_char_Raise c Hs))
    as (c' & e' & _ & He' & ->).
  simpl. f_equal. by eapply encode_char_exc.
Qed.

(** *** The characters of words and chunks *)

Lemma split_from_chars (s cur w : str) (c : N) :
  w ∈ split_from s cur -> c ∈ w -> c ∈ cur \/ c ∈ s.
Proof.
  revert cur. induction s as [|x s IH]; intros cur Hw Hc; simpl in Hw.
  - destruct cur; [inversion Hw|].
    apply list_elem_of_singleton in Hw as ->. by left.
  - destruct (isspace x).
    + destruct cur as [|a cur].
      * destruct (IH [] Hw Hc) as [H|H]; [inversion H|]. right. by right.
      * apply elem_of_cons in Hw as [->|Hw]; [by left|].
        destruct (IH [] Hw Hc) as [H|H]; [inversion H|]. right. by right.
    + destruct (IH _ Hw Hc) as [H|H]; [|right; by right].
      apply elem_of_app in H as [H|H]; [by left|].
      apply list_elem_of_singleton in H as ->. right. by left.
Qed.

Lemma split_from_covers (s cur : str) (c : N) :
  isspace c = false -> c ∈ cur \/ c ∈ s ->
  exists w, w ∈ split_from s cur /\ c ∈ w.
Proof.
  intros Hc. revert cur. induction s as [|x s IH]; intros cur Hin; simpl.
  - destruct Hin as [Hin|Hin]; [|inversion Hin].
    destruct cur; [inversion Hin|]. eexists. split; [by left|done].
  - destruct (isspace x) eqn:Hx.
    + destruct Hin as [Hin|Hin].
      * destruct cur; [inversion Hin|]. eexists. split; [by left|done].
      * apply elem_of_cons in Hin as [->|Hin]; [congruence|].
        destruct (IH [] (or_intror Hin)) as (w & Hw & Hcw).
        exists w. split; [|done]. destruct cur; [done|by right].
    + apply IH. rewrite elem_of_app, list_elem_of_singleton.
      destruct Hin as [?|[->|?]%elem_of_cons]; tauto.
Qed.

Lemma join_chars (ws : list str) (c : N) :
  c ∈ join (py " ") ws <-> (c = 32%N /\ (2 <= length ws)%nat)
                           \/ exists w, w ∈ ws /\ c ∈ w.
Proof.
  induction ws as [|w ws IH]; simpl.
  - rewrite elem_of_nil. split; [done|].
    intros [[_ ?]|(w & Hw & _)]; [lia|inversion Hw].
  - destruct ws as [|w' ws].
    + split.
      * intros Hc. right. exists w. split; [by left|done].
      * intros [[_ ?]|(w0 & Hw0 & Hc)]; [simpl in *; lia|].
        by apply list_elem_of_singleton in Hw0 as ->.
    + rewrite elem_of_app, elem_of_cons, IH. split.
      * intros [Hc|[->|[[-> _]|(w0 & Hw0 & Hc)]]].
        -- right. exists w. split; [by left|done].
        -- left. split; [done|simpl; lia].
        -- left. split; [done|simpl; lia].
        -- right. exists w0. split; [by right|done].
      * intros [[-> _]|(w0 & Hw0 & Hc)]; [by right; left|].
        apply elem_of_cons in Hw0 as [->|Hw0]; [by left|].
        right. right. right. by exists w0.
Qed.

(** Every character of a chunk is a character of the text or the joining
    space, and every character of the text that is not whitespace is in
    some chunk. *)
Lemma chunk_text_chars (text : str) (chunk_size : Z) :
  (forall chunk c, chunk ∈ chunk_text text chunk_size -> c ∈ chunk ->
                   c = 32%N \/ c ∈ text)
  /\ (forall c, c ∈ text -> isspace c = false ->
                exists chunk, chunk ∈ chunk_text text chunk_size /\ c ∈ chunk).
Proof.
  destruct (chunk_text_spec text chunk_size) as [Hsplit Hall].
  rewrite Forall_forall in Hall. split.
  - intros chunk c Hchunk Hc.
    destruct (Hall chunk Hchunk) as (ws & _ & Hws & ->).
    apply join_chars in Hc as [[-> _]|(w & Hw & Hc)]; [by left|]. right.
    assert (Hin : w ∈ split text).
    { rewrite <- Hsplit. apply list_elem_of_In, in_flat_map.
      exists (join (py " ") ws). split; [by apply list_elem_of_In|].
      rewrite split_join by done. by apply list_elem_of_In. }
    destruct (split_from_chars text [] w c Hin Hc) as [H|H]; [inversion H|done].
  - intros c Hc Hsp.
    destruct (split_from_covers text [] c Hsp (or_intror Hc)) as (w & Hw & Hcw).
    change (split_from text []) with (split text) in Hw.
    rewrite <- Hsplit in Hw.
    apply list_elem_of_In, in_flat_map in Hw as (chunk & Hchunk & Hw).
    apply list_elem_of_In in Hchunk, Hw. exists chunk. split; [done|].
    destruct (split_from_chars chunk [] w c Hw Hcw) as [H|H]; [inversion H|done].
Qed.

Lemma repo_fetcher_process_surrogate_aux (text : str) :
  Exists surrogate text ->
  repo_fetcher_process text = Raise UnicodeEncodeError.
Proof.
  intros (c & Hc & Hs)%Exists_exists. unfold repo_fetcher_process.
  assert (Hsp : isspace c = false).
  { unfold surrogate in Hs. apply not_true_is_false. unfold isspace.
    rewrite !orb_true_iff, !andb_true_iff, !N.leb_le, !N.eqb_eq. lia. }
  destruct (proj2 (chunk_text_chars text 1000) c Hc Hsp) as (chunk & Hchunk & Hcc).
  assert (Hfail : simple_embedding chunk = Raise UnicodeEncodeError).
  { unfold simple_embedding. rewrite encode_Raise; [done|].
    apply Exists_exists. by exists c. }
  destruct (mapM_Raise simple_embedding _ chunk _ Hchunk Hfail)
    as (chunk' & e' & _ & He' & Hm).
  unfold chunk_text_default. rewrite Hm. simpl. f_equal.
  pose proof (simple_embedding_cases chunk') as Hcases.
  by rewrite He' in Hcases.
Qed.

(** X6: [process] raises [UnicodeEncodeError] on every text that holds a
    lone surrogate. *)
Theorem repo_fetcher_process_surrogate (text : str) :
  Exists surrogate text ->
  repo_fetcher_process text = Raise UnicodeEncodeError.
Proof. apply repo_fetcher_process_surrogate_aux. Qed.

Lemma repo_fetcher_process_surrogate_witness :
  repo_fetcher_process (py "def " ++ [56448%N] ++ py " x")
  = Raise UnicodeEncodeError.
Proof.
  apply (repo_fetcher_process_surrogate (py "def " ++ [56448%N] ++ py " x")).
  apply Exists_exists. exists 56448%N. split.
  - apply list_elem_of_In. vm_compute. tauto.
  - unfold surrogate. lia.
Defined.

Lemma repo_fetcher_process_returns_aux (text : str) :
  Forall (fun c => code_point c /\ ~ surrogate c) text ->
  exists embeddings,
    repo_fetcher_process text
    = Return {| chunks_of := chunk_text text 1000;
                embeddings_of := embeddings |}
    /\ length embeddings = length (chunk_text text 1000)
    /\ Forall (fun e => length e = 16%nat /\ Forall in_unit_interval e)
              embeddings.
Proof.
  intros Htext. unfold repo_fetcher_process, chunk_text_default.
  rewrite Forall_forall in Htext.
  destruct (mapM_Return simple_embedding (chunk_text text 1000))
    as (embeddings & -> & Hall).
  { intros chunk Hchunk. unfold simple_embedding.
    destruct (encode_Return chunk) as [bs ->]; [|by eexists].
    apply Forall_forall. intros c Hc.
    destruct (proj1 (chunk_text_chars text 1000) chunk c Hchunk Hc) as [->|Hin].
    - unfold code_point, surrogate. lia.
    - by apply Htext. }
  exists embeddings. split; [done|]. split.
  - symmetry. by eapply Forall2_length.
  - apply Forall_forall. intros e He.
    apply list_elem_of_lookup in He as [i Hi].
    destruct (Forall2_lookup_r _ _ _ _ _ Hall Hi) as (chunk & _ & Hchunk).
    pose proof (simple_embedding_cases chunk) as Hcases.
    by rewrite Hchunk in Hcases.
Qed.

(** X7: on a text without surrogates [process] returns the chunks of
    [chunk_text] with the default size and one embedding per chunk, each of
    16 values in the unit interval. *)
Theorem repo_fetcher_process_returns (text : str) :
  Forall (fun c => code_point c /\ ~ surrogate c) text ->
  exists embeddings,
    repo_fetcher_process text
    = Return {| chunks_of := chunk_text text 1000;
                embeddings_of := embeddings |}
    /\ length embeddings = length (chunk_text text 1000)
    /\ Forall (fun e => length e = 16%nat /\ Forall in_unit_interval e)
              embeddings.
Proof. apply repo_fetcher_process_returns_aux. Qed.

Lemma repo_fetcher_process_returns_witness :
  exists embeddings,
    repo_fetcher_process (py "class Foo uses class Bar")
    = Return {| chunks_of := chunk_text (py "class Foo uses class Bar") 1000;
                embeddings_of := embeddings |}
    /\ length embeddings
       = length (chunk_text (py "class Foo uses class Bar") 1000)
    /\ Forall (fun e => length e = 16%nat /\ Forall in_unit_interval e)
              embeddings.
Proof.
  apply (repo_fetcher_process_returns (py "class Foo uses class Bar")).
  apply Forall_forall. intros c Hc. apply list_elem_of_In in Hc.
  unfold code_point, surrogate. vm_compute in Hc.
  repeat (destruct Hc as [<-|Hc]; [lia|]). done.
Defined.

(** ** [find_dependencies]: which pairs are emitted *)

(** [u] occurs in [l] with [v] somewhere after it. *)
Fixpoint precedes (l : list str) (u v : str) : Prop :=
  match l with
  | [] => False
  | x :: l' => (x = u /\ v ∈ l') \/ precedes l' u v
  end.

Lemma precedes_in (l : list str) (u v : str) :
  precedes l u v -> u ∈ l /\ v ∈ l.
Proof.
  induction l as [|x l IH]; simpl; [done|].
  intros [[-> Hv]|H].
  - split; [by left|by right].
  - destruct (IH H). split; by right.
Qed.

Lemma precedes_filter (P : str -> Prop) `{!forall x, Decision (P x)}
    (l : list str) (u v : str) :
  precedes (filter P l) u v <-> P u /\ P v /\ precedes l u v.
Proof.
  induction l as [|x l IH]; simpl; [tauto|].
  rewrite filter_cons. destruct (decide (P x)) as [HP|HP]; simpl.
  - rewrite IH, list_elem_of_filter. split.
    + intros [[-> [? ?]]|(? & ? & ?)]; tauto.
    + intros (? & ? & [[-> ?]|?]); tauto.
  - rewrite IH. split; [tauto|].
    intros (Hu & Hv & [[-> ?]|?]); tauto.
Qed.

Lemma pairs_after_spec (found : list str) (u v : str) :
  (u, v) ∈ pairs_after found <-> u <> v /\ precedes found u v.
Proof.
  induction found as [|e1 rest IH]; simpl.
  - rewrite elem_of_nil. tauto.
  - rewrite elem_of_app, IH, list_elem_of_fmap. split.
    + intros [(e2 & [= -> ->] & [Hne Hin]%list_elem_of_filter)|[? ?]]; tauto.
    + intros [Hne [[-> Hin]|?]]; [left|tauto].
      exists v. split; [done|]. by apply list_elem_of_filter.
Qed.

(** An entity occurs in a chunk: its lowercase form is a substring of the
    lowercase chunk. *)
Definition occurs_in (unicode_lower : str -> str) (chunk e : str) : Prop :=
  contains (lower unicode_lower chunk) (lower unicode_lower e) = true.

Lemma find_dependencies_spec_aux (unicode_lower : str -> str)
    (chunks entities : list str) (u v : str) :
  (u, v) ∈ find_dependencies unicode_lower chunks entities
  <-> u <> v
      /\ precedes entities u v
      /\ exists chunk, chunk ∈ chunks
                       /\ occurs_in unicode_lower chunk u
                       /\ occurs_in unicode_lower chunk v.
Proof.
  unfold find_dependencies.
  rewrite list_elem_of_In, in_flat_map. setoid_rewrite <- list_elem_of_In.
  setoid_rewrite pairs_after_spec. unfold found_in.
  setoid_rewrite precedes_filter. unfold occurs_in. split.
  - intros (chunk & Hchunk & Hne & Hu & Hv & Hprec).
    split; [done|]. split; [done|]. by exists chunk.
  - intros (Hne & Hprec & chunk & Hchunk & Hu & Hv). by exists chunk.
Qed.

(** X8: [find_dependencies] emits the pair (u, v) exactly when u and v are
    different entities that both occur in one same chunk and u comes before
    v in the iteration order of the entities. *)
Theorem find_dependencies_spec (unicode_lower : str -> str)
    (chunks entities : list str) (u v : str) :
  (u, v) ∈ find_dependencies unicode_lower chunks entities
  <-> u <> v
      /\ precedes entities u v
      /\ exists chunk, chunk ∈ chunks
                       /\ occurs_in unicode_lower chunk u
                       /\ occurs_in unicode_lower chunk v.
Proof. apply find_dependencies_spec_aux. Qed.

(** ** The graph of [process] *)

Lemma precedes_irrefl (l : list str) (v : str) :
  NoDup l -> ~ precedes l v v.
Proof.
  induction 1 as [|x l Hx _ IH]; simpl; [tauto|].
  intros [[-> ?]|?]; tauto.
Qed.

Lemma precedes_trans (l : list str) (u v w : str) :
  NoDup l -> precedes l u v -> precedes l v w -> precedes l u w.
Proof.
  induction 1 as [|x l Hx _ IH]; simpl; [tauto|].
  intros [[-> Hv]|Huv] [[-> Hw]|Hvw].
  - done.
  - left. split; [done|]. by apply (precedes_in l v w).
  - destruct Hx. by apply (precedes_in l u v).
  - right. by apply IH.
Qed.

Lemma pair_successors (u : str) (es : list (str * str)) :
  map (pair u) (filter (fun e => e.1 = u) es).*2
  = filter (fun e => e.1 = u) es.
Proof.
  induction es as [|[a b] es IH]; [done|].
  rewrite filter_cons. cbn [fst]. destruct (decide (a = u)) as [->|Hne].
  - rewrite fmap_cons. cbn [map snd]. by rewrite IH.
  - exact IH.
Qed.

Lemma edge_view_out_edges (G : DiGraph) :
  edge_view G = flat_map (out_edges G) (G_nodes G).
Proof.
  unfold edge_view, successors, out_edges.
  induction (G_nodes G) as [|u ns IH]; [done|].
  cbn [flat_map]. by rewrite IH, pair_successors.
Qed.

Section BuiltGraph.

Variable unicode_lower : str -> str.
Variable weakly_connected_components : DiGraph -> list (list str).
Variables chunks entities : list str.
Hypothesis entities_distinct : NoDup entities.

Let g : graph_data :=
  build_graph unicode_lower weakly_connected_components chunks entities.

Let G : DiGraph :=
  add_edges_from (add_nodes_from empty_graph entities)
    (find_dependencies unicode_lower chunks entities).

Lemma built_graph_wf : graph_wf G.
Proof. apply add_edges_from_wf, add_nodes_from_wf, graph_wf_empty. Qed.

Lemma built_graph_nodes : get (nodes g) = entities.
Proof.
  unfold g, build_graph. simpl.
  change (G_nodes G = entities). unfold G.
  assert (Hns : G_nodes (add_nodes_from empty_graph entities) = entities).
  { by rewrite add_nodes_from_fresh. }
  rewrite add_edges_from_same_nodes; [done|]. rewrite Hns.
  apply Forall_forall. intros [u v] He.
  apply find_dependencies_spec_aux in He as (_ & Hprec & _).
  by apply precedes_in.
Qed.

Lemma built_graph_edges (e : str * str) :
  e ∈ get (edges g)
  <-> e ∈ find_dependencies unicode_lower chunks entities.
Proof.
  unfold g, build_graph. simpl.
  change (e ∈ edge_view G <-> e ∈ find_dependencies unicode_lower chunks entities).
  rewrite (edge_view_edges G e built_graph_wf). unfold G.
  rewrite add_edges_from_edges, add_nodes_from_edges. simpl.
  rewrite elem_of_nil. tauto.
Qed.

Lemma built_graph_edges_NoDup : NoDup (get (edges g)).
Proof.
  unfold g, build_graph. simpl. change (NoDup (edge_view G)).
  rewrite edge_view_out_edges.
  apply (out_edges_NoDup G built_graph_wf), (wf_nodes _ built_graph_wf).
Qed.

Lemma built_graph_edge_precedes (u v : str) :
  tc (edge_of g) u v -> precedes entities u v.
Proof.
  induction 1 as [u v H|u v w H _ IH].
  - apply built_graph_edges, find_dependencies_spec_aux in H. tauto.
  - apply built_graph_edges, find_dependencies_spec_aux in H as (_ & H & _).
    by apply (precedes_trans entities u v w).
Qed.

Lemma built_graph_dependency_wf : dependency_graph_wf g.
Proof.
  split.
  - by rewrite built_graph_nodes.
  - apply Forall_forall. intros [u v] He. rewrite built_graph_nodes.
    apply built_graph_edges, find_dependencies_spec_aux in He as (_ & Hprec & _).
    by apply precedes_in.
Qed.

Lemma built_graph_acyclic : is_acyclic g.
Proof.
  intros v Hc%built_graph_edge_precedes.
  by apply (precedes_irrefl entities v).
Qed.

End BuiltGraph.

(** X9: when the entities are distinct (they come from a set), the graph of
    [process] has the entities as its nodes, in their iteration order and
    whether or not they have edges; its edges are the pairs of
    [find_dependencies], each listed once. *)
Theorem build_graph_nodes_and_edges (unicode_lower : str -> str)
    (weakly_connected_components : DiGraph -> list (list str))
    (chunks entities : list str) :
  NoDup entities ->
  let g := build_graph unicode_lower weakly_connected_components
             chunks entities in
  get (nodes g) = entities
  /\ NoDup (get (edges g))
  /\ forall e, e ∈ get (edges g)
               <-> e ∈ find_dependencies unicode_lower chunks entities.
Proof.
  intros Hnd. split; [by apply built_graph_nodes|].
  split; [apply built_graph_edges_NoDup|]. intros e. apply built_graph_edges.
Qed.

Lemma build_graph_acyclic_aux (unicode_lower : str -> str)
    (weakly_connected_components : DiGraph -> list (list str))
    (chunks entities : list str) :
  NoDup entities ->
  let g := build_graph unicode_lower weakly_connected_components
             chunks entities in
  dependency_graph_wf g
  /\ is_acyclic g
  /\ forall u v, tc (edge_of g) u v -> precedes entities u v.
Proof.
  intros Hnd. split; [by apply built_graph_dependency_wf|].
  split; [by apply built_graph_acyclic|].
  intros u v. by apply built_graph_edge_precedes.
Qed.

(** X10: the graph of [process] never has a cycle: every path follows the
    iteration order of the entities. *)
Theorem build_graph_acyclic (unicode_lower : str -> str)
    (weakly_connected_components : DiGraph -> list (list str))
    (chunks entities : list str) :
  NoDup entities ->
  let g := build_graph unicode_lower weakly_connected_components
             chunks entities in
  dependency_graph_wf g
  /\ is_acyclic g
  /\ forall u v, tc (edge_of g) u v -> precedes entities u v.
Proof. apply build_graph_acyclic_aux. Qed.

Lemma build_graph_nodes_and_edges_witness :
  let g := build_graph (fun s => s) (fun _ => [])
             [py "class Foo uses class Bar"; py "class Bar calls class Baz"]
             [py "Bar"; py "Foo"; py "Baz"] in
  get (nodes g) = [py "Bar"; py "Foo"; py "Baz"]
  /\ NoDup (get (edges g))
  /\ forall e, e ∈ get (edges g)
               <-> e ∈ find_dependencies (fun s => s)
                         [py "class Foo uses class Bar";
                          py "class Bar calls class Baz"]
                         [py "Bar"; py "Foo"; py "Baz"].
Proof.
  apply (build_graph_nodes_and_edges (fun s => s) (fun _ => [])
           [py "class Foo uses class Bar"; py "class Bar calls class Baz"]
           [py "Bar"; py "Foo"; py "Baz"]).
  apply (bool_decide_unpack _). by vm_compute.
Defined.

Lemma build_graph_acyclic_witness :
  let g := build_graph (fun s => s) (fun _ => [])
             [py "class Foo uses class Bar"; py "class Bar calls class Baz"]
             [py "Bar"; py "Foo"; py "Baz"] in
  dependency_graph_wf g
  /\ is_acyclic g
  /\ forall u v, tc (edge_of g) u v
                 -> precedes [py "Bar"; py "Foo"; py "Baz"] u v.
Proof.
  apply (build_graph_acyclic (fun s => s) (fun _ => [])
           [py "class Foo uses class Bar"; py "class Bar calls class Baz"]
           [py "Bar"; py "Foo"; py "Baz"]).
  apply (bool_decide_unpack _). by vm_compute.
Defined.

(** ** [topological_sort]: the order follows the edges *)

Lemma precedes_app (l1 l2 : list str) (u v : str) :
  precedes (l1 ++ l2) u v
  <-> precedes l1 u v \/ (u ∈ l1 /\ v ∈ l2) \/ precedes l2 u v.
Proof.
  induction l1 as [|x l1 IH]; simpl.
  - rewrite elem_of_nil. tauto.
  - rewrite IH, elem_of_app, elem_of_cons. split.
    + intros [[-> [?|?]]|[?|[[? ?]|?]]]; tauto.
    + intros [[[-> ?]|?]|[[[->|?] ?]|?]]; tauto.
Qed.

Section KahnOrder.

Variable G : DiGraph.
Hypothesis HG : graph_wf G.

(** The source of every edge into a listed node is listed before it. *)
Definition topo_sorted (l : list str) : Prop :=
  forall u v, G_edge G u v -> v ∈ l -> precedes l u v.

Lemma topo_sorted_generation (D zero : list str) (m : gmap str Z) :
  loop_inv G D zero m -> topo_sorted D -> topo_sorted (D ++ zero).
Proof.
  intros Hinv Hsorted u v Huv Hv. apply precedes_app.
  destruct (decide (v ∈ D)) as [HvD|HvD]; [left; by apply Hsorted|].
  right. left. apply elem_of_app in Hv as [?|Hv]; [done|]. split; [|done].
  assert (HvV : v ∈ G_nodes G) by (by apply (wf_ends _ HG (u, v))).
  assert (Hzero : pending G (flat_map (out_edges G) D) v = 0%nat).
  { apply (li_zero _ _ _ _ Hinv v HvV). apply elem_of_app. by right. }
  pose proof (pending_zero G _ v (u, v) Hzero Huv eq_refl) as Hin.
  by apply out_edges_flat in Hin as [_ Hin].
Qed.

Lemma generations_sorted (fuel : nat) :
  forall (D zero : list str) (m : gmap str Z) (rest : list str),
    loop_inv G D zero m -> topo_sorted D ->
    generations fuel G m zero = Some (Return rest) ->
    topo_sorted (D ++ rest).
Proof.
  induction fuel as [|fuel IH]; intros D zero m rest Hinv Hsorted Hrun.
  - destruct zero; [|done]. simpl in Hrun.
    destruct (decide (m = ∅)); [|done]. injection Hrun as <-.
    by rewrite app_nil_r.
  - destruct zero as [|z zero].
    + simpl in Hrun. destruct (decide (m = ∅)); [|done].
      injection Hrun as <-. by rewrite app_nil_r.
    + destruct (generation_inv G HG D (z :: zero) m Hinv)
        as (m' & zero' & Hgen & Hinv').
      cbn [generations] in Hrun. rewrite Hgen in Hrun.
      destruct (generations fuel G m' zero') as [[rest'|e]|] eqn:Hrec;
        [|done|done].
      injection Hrun as <-.
      change (topo_sorted (D ++ (z :: zero) ++ rest')). rewrite app_assoc.
      apply (IH _ zero' m' rest' Hinv'); [|done].
      by eapply topo_sorted_generation.
Qed.

(** In the order that [topological_sort] returns, the source of every edge
    comes before its target. *)
Lemma topological_sort_sorted (order : list str) (u v : str) :
  topological_sort G = Return order -> G_edge G u v -> precedes order u v.
Proof.
  intros Hsort Huv.
  pose proof (topological_sort_spec G HG) as Hspec. rewrite Hsort in Hspec.
  destruct Hspec as [Hperm _].
  unfold topological_sort, topological_generations in Hsort.
  destruct (generations _ _ _ _) as [r|] eqn:Hrun; [|done]. subst r.
  apply (generations_sorted _ [] _ _ order (initial_inv G HG)) in Hrun.
  - apply Hrun; [done|]. simpl. rewrite Hperm.
    by apply (wf_ends _ HG (u, v)).
  - intros ? ? _ Hin. inversion Hin.
Qed.

End KahnOrder.

(** X11: on an acyclic dependency graph, [build_execution_flow] lists the
    first 8 nodes of an ordering of all the nodes in which the source of
    every edge comes before its target. *)
Theorem build_execution_flow_topological (g : graph_data) :
  dependency_graph_wf g -> is_acyclic g -> get (nodes g) <> [] ->
  exists order,
    order ≡ₚ get (nodes g)
    /\ (forall u v, edge_of g u v -> precedes order u v)
    /\ build_execution_flow g
       = Return (imap (flow_step (len order)) (take 8 order)).
Proof.
  intros Hwf Hacyc Hne. rewrite build_execution_flow_unfold by done.
  pose proof (topological_sort_spec (graph_of g) (graph_of_wf g)) as Hsort.
  destruct (topological_sort (graph_of g)) as [order|e] eqn:Hrun.
  - destruct Hsort as [Hperm _]. exists order.
    split; [by rewrite Hperm, graph_of_nodes|]. split; [|done].
    intros u v Huv.
    apply (topological_sort_sorted (graph_of g) (graph_of_wf g) order);
      [done|by apply graph_of_edge].
  - destruct Hsort as [_ [v Hv]]. apply graph_of_acyclic in Hacyc.
    by destruct (Hacyc v).
Qed.

Lemma build_execution_flow_topological_witness :
  exists order,
    order ≡ₚ get (nodes nine_nodes)
    /\ (forall u v, edge_of nine_nodes u v -> precedes order u v)
    /\ build_execution_flow nine_nodes
       = Return (imap (flow_step (len order)) (take 8 order)).
Proof.
  apply (build_execution_flow_topological nine_nodes
           nine_nodes_wf nine_nodes_acyclic).
  done.
Defined.

Lemma build_execution_flow_length_aux (g : graph_data) :
  dependency_graph_wf g -> is_acyclic g ->
  exists steps,
    build_execution_flow g = Return steps
    /\ length steps = match get (nodes g) with
                      | [] => 3%nat
                      | _ => (length (get (nodes g)) `min` 8)%nat
                      end.
Proof.
  intros Hwf Hacyc. destruct (get (nodes g)) as [|n ns] eqn:Hns.
  - unfold build_execution_flow. rewrite Hns. by eexists.
  - destruct (build_execution_flow_acyclic g Hwf Hacyc)
      as (order & Hperm & ->); [by rewrite Hns|].
    eexists. split; [done|].
    rewrite length_imap, length_take, (Permutation_length Hperm), Hns. lia.
Qed.

(** X12: on an acyclic dependency graph the flow has one step per node up
    to 8 steps, and the three fixed steps when there is no node. *)
Theorem build_execution_flow_length (g : graph_data) :
  dependency_graph_wf g -> is_acyclic g ->
  exists steps,
    build_execution_flow g = Return steps
    /\ length steps = match get (nodes g) with
                      | [] => 3%nat
                      | _ => (length (get (nodes g)) `min` 8)%nat
                      end.
Proof. apply build_execution_flow_length_aux. Qed.

Lemma build_execution_flow_length_witness :
  exists steps,
    build_execution_flow nine_nodes = Return steps
    /\ length steps = 8%nat.
Proof.
  apply (build_execution_flow_length nine_nodes
           nine_nodes_wf nine_nodes_acyclic).
Defined.

(** X13: a graph with a single node and no cycle gives the single step
    "Initialize " and the node: the first-index test wins over the
    last-index test. *)
Theorem build_execution_flow_single_node (g : graph_data) (a : str) :
  dependency_graph_wf g -> is_acyclic g -> get (nodes g) = [a] ->
  build_execution_flow g = Return [py "Initialize " ++ a].
Proof.
  intros Hwf Hacyc Ha.
  destruct (build_execution_flow_acyclic g Hwf Hacyc)
    as (order & Hperm & ->); [by rewrite Ha|].
  rewrite Ha in Hperm. apply Permutation_singleton_r in Hperm as ->. done.
Qed.

Lemma build_execution_flow_single_node_witness :
  build_execution_flow (nodes_only [py "main"])
  = Return [py "Initialize main"].
Proof.
  apply (build_execution_flow_single_node (nodes_only [py "main"]) (py "main")).
  - split; simpl; [apply NoDup_singleton|constructor].
  - intros v Hc. destruct Hc as [? ? H|? ? ? H _]; inversion H.
  - done.
Defined.

(** X14: [build_execution_flow] raises exactly on the graphs that list a
    node and whose edges contain a cycle, and then the exception is
    [NetworkXUnfeasible]. *)
Theorem build_execution_flow_raise_iff (g : graph_data) (e : exc_class) :
  build_execution_flow g = Raise e
  <-> e = NetworkXUnfeasible /\ has_cycle g /\ get (nodes g) <> [].
Proof.
  split.
  - intros Hraise.
    assert (Hne : get (nodes g) <> []).
    { intros Hnil. unfold build_execution_flow in Hraise.
      by rewrite Hnil in Hraise. }
    rewrite build_execution_flow_unfold in Hraise by done.
    pose proof (topological_sort_spec (graph_of g) (graph_of_wf g)) as Hsort.
    destruct (topological_sort (graph_of g)) as [order|e']; [done|].
    destruct Hsort as [-> Hcyc]. simpl in Hraise. injection Hraise as <-.
    split; [done|]. split; [by apply graph_of_cyclic|done].
  - intros (-> & Hcyc & Hne). by apply build_execution_flow_cyclic.
Qed.

(** ** The stages composed *)

Lemma flow_process_on_built_graph_aux (unicode_lower : str -> str)
    (weakly_connected_components : DiGraph -> list (list str))
    (chunks entities : list str) :
  NoDup entities ->
  let g := build_graph unicode_lower weakly_connected_components
             chunks entities in
  exists steps,
    build_execution_flow g = Return steps
    /\ length steps = match entities with
                      | [] => 3%nat
                      | _ => (length entities `min` 8)%nat
                      end
    /\ flow_process unicode_lower g
       = Return {| execution_flow := steps;
                   key_components := extract_key_components g;
                   key_functions := extract_key_functions unicode_lower g |}.
Proof.
  intros Hnd g.
  destruct (build_graph_acyclic_aux unicode_lower weakly_connected_components
              chunks entities Hnd) as (Hwf & Hacyc & _).
  destruct (build_execution_flow_length_aux _ Hwf Hacyc) as (steps & Hflow & Hlen).
  fold g in Hflow, Hlen. exists steps. split; [done|]. split.
  - unfold g in Hlen. by rewrite built_graph_nodes in Hlen.
  - unfold flow_process. by rewrite Hflow.
Qed.

(** X15: the Flow Reasoner never raises on a graph of the Structure
    Extractor: [process] returns the flow, the key components and the key
    functions of that graph. *)
Theorem flow_process_on_built_graph (unicode_lower : str -> str)
    (weakly_connected_components : DiGraph -> list (list str))
    (chunks entities : list str) :
  NoDup entities ->
  let g := build_graph unicode_lower weakly_connected_components
             chunks entities in
  exists steps,
    build_execution_flow g = Return steps
    /\ length steps = match entities with
                      | [] => 3%nat
                      | _ => (length entities `min` 8)%nat
                      end
    /\ flow_process unicode_lower g
       = Return {| execution_flow := steps;
                   key_components := extract_key_components g;
                   key_functions := extract_key_functions unicode_lower g |}.
Proof. apply flow_process_on_built_graph_aux. Qed.

Lemma flow_process_on_built_graph_witness :
  let g := build_graph (fun s => s) (fun _ => [])
             [py "class Foo uses class Bar"; py "class Bar calls class Baz"]
             [py "Bar"; py "Foo"; py "Baz"] in
  exists steps,
    build_execution_flow g = Return steps
    /\ length steps = 3%nat
    /\ flow_process (fun s => s) g
       = Return {| execution_flow := steps;
                   key_components := extract_key_components g;
                   key_functions := extract_key_functions (fun s => s) g |}.
Proof.
  apply (flow_process_on_built_graph (fun s => s) (fun _ => [])
           [py "class Foo uses class Bar"; py "class Bar calls class Baz"]
           [py "Bar"; py "Foo"; py "Baz"]).
  apply (bool_decide_unpack _). by vm_compute.
Defined.

(** X16: on a text without surrogates, and with an entity extractor that
    returns distinct entities, [run_agent_graph] on the three agents returns
    what the Flow Reasoner computes from the graph of the chunks: the generic
    summary is not used. *)
Theorem analyze_returns_flow (unicode_lower : str -> str)
    (extract_entities : list str -> list str)
    (weakly_connected_components : DiGraph -> list (list str))
    (text : str) :
  (forall chunks, NoDup (extract_entities chunks)) ->
  Forall (fun c => code_point c /\ ~ surrogate c) text ->
  let chunks := chunk_text text 1000 in
  let g := build_graph unicode_lower weakly_connected_components
             chunks (extract_entities chunks) in
  exists steps,
    build_execution_flow g = Return steps
    /\ analyze unicode_lower extract_entities weakly_connected_components text
       = Return {| execution_flow := steps;
                   key_components := extract_key_components g;
                   key_functions := extract_key_functions unicode_lower g |}.
Proof.
  intros Hnd Htext chunks g.
  destruct (repo_fetcher_process_returns_aux text Htext) as (embeddings & Hrepo & _).
  destruct (flow_process_on_built_graph_aux unicode_lower
              weakly_connected_components chunks (extract_entities chunks)
              (Hnd chunks)) as (steps & Hflow & _ & Hproc).
  exists steps. split; [done|].
  unfold analyze, run_agent_graph, execute_pipeline.
  rewrite Hrepo. cbn [bind chunks_of]. unfold structure_process.
  cbn [bind dependency_graph]. subst g chunks. rewrite Hproc. done.
Qed.

Lemma analyze_returns_flow_witness :
  exists steps,
    build_execution_flow
      (build_graph (fun s => s) (fun _ => [])
         (chunk_text (py "plain prose") 1000) [])
    = Return steps
    /\ analyze (fun s => s) (fun _ => []) (fun _ => []) (py "plain prose")
       = Return {| execution_flow := steps;
                   key_components :=
                     extract_key_components
                       (build_graph (fun s => s) (fun _ => [])
                          (chunk_text (py "plain prose") 1000) []);
                   key_functions :=
                     extract_key_functions (fun s => s)
                       (build_graph (fun s => s) (fun _ => [])
                          (chunk_text (py "plain prose") 1000) []) |}.
Proof.
  apply (analyze_returns_flow (fun s => s) (fun _ => []) (fun _ => [])
           (py "plain prose")).
  - intros _. constructor.
  - apply Forall_forall. intros c Hc. apply list_elem_of_In in Hc.
    unfold code_point, surrogate. vm_compute in Hc.
    repeat (destruct Hc as [<-|Hc]; [lia|]). done.
Defined.

(** X17: on a text that holds a lone surrogate, [run_agent_graph] on the
    three agents returns the generic summary, whatever the entity
    extractor. *)
Theorem analyze_surrogate (unicode_lower : str -> str)
    (extract_entities : list str -> list str)
    (weakly_connected_components : DiGraph -> list (list str))
    (text : str) :
  Exists surrogate text ->
  analyze unicode_lower extract_entities weakly_connected_components text
  = Return generic_summary.
Proof.
  intros Hs. unfold analyze, run_agent_graph, execute_pipeline.
  by rewrite (repo_fetcher_process_surrogate_aux text Hs).
Qed.

Lemma analyze_surrogate_witness :
  analyze (fun s => s) (fun _ => []) (fun _ => [])
    (py "def " ++ [56448%N] ++ py " x")
  = Return generic_summary.
Proof.
  apply (analyze_surrogate (fun s => s) (fun _ => []) (fun _ => [])
           (py "def " ++ [56448%N] ++ py " x")).
  apply Exists_exists. exists 56448%N. split.
  - apply list_elem_of_In. vm_compute. tauto.
  - unfold surrogate. lia.
Defined.

(** X18: whatever the three stages do, [run_agent_graph] either returns a
    result or lets through an exception that is not an [Exception] (such as
    [KeyboardInterrupt]), raised by one of the stages; it returns the result
    of the pipeline when no stage raises. *)
Theorem run_agent_graph_outcomes
    (repo_fetcher_agent : str -> result ChunkResponse)
    (structure_analyzer_agent : list str -> result StructureResponse)
    (flow_reasoning_agent : graph_data -> result FlowResponse)
    (text : str) :
  let run := run_agent_graph repo_fetcher_agent structure_analyzer_agent
               flow_reasoning_agent text in
  (forall r, execute_pipeline repo_fetcher_agent structure_analyzer_agent
               flow_reasoning_agent text = Return r -> run = Return r)
  /\ (forall e, run = Raise e ->
                issubclass e Exception = false
                /\ stage_raises repo_fetcher_agent structure_analyzer_agent
                     flow_reasoning_agent text e).
Proof.
  unfold run_agent_graph, execute_pipeline, stage_raises. split.
  - intros r ->. done.
  - intros e.
    destruct (repo_fetcher_agent text) as [c|e1] eqn:H1; cbn [bind].
    + destruct (structure_analyzer_agent (chunks_of c)) as [s|e2] eqn:H2;
        cbn [bind].
      * destruct (flow_reasoning_agent (dependency_graph s)) as [r|e3] eqn:H3;
          cbn [bind try_except]; [done|].
        destruct (issubclass e3 Exception) eqn:He; [done|].
        intros [= <-]. split; [done|]. right. right. by exists c, s.
      * cbn [try_except]. destruct (issubclass e2 Exception) eqn:He; [done|].
        intros [= <-]. split; [done|]. right. left. by exists c.
    + cbn [try_except]. destruct (issubclass e1 Exception) eqn:He; [done|].
      intros [= <-]. split; [done|]. by left.
Qed.

(** ** [extract_key_functions] *)

(** The lowercase name contains one of the keywords. *)
Definition is_function_name (unicode_lower : str -> str) (node : str) : Prop :=
  existsb (fun kw => contains (lower unicode_lower node) kw) function_keywords
  = true.

Global Instance is_function_name_dec (unicode_lower : str -> str) (node : str) :
  Decision (is_function_name unicode_lower node).
Proof. unfold is_function_name. apply _. Defined.

(** X19: [extract_key_functions] returns at least one and at most five
    names; on a graph with nodes they are nodes in their order of listing;
    and as soon as one node contains a keyword, every returned name does. *)
Theorem extract_key_functions_props (unicode_lower : str -> str)
    (g : graph_data) :
  let r := extract_key_functions unicode_lower g in
  r <> []
  /\ (length r <= 5)%nat
  /\ (get (nodes g) <> [] -> r `sublist_of` get (nodes g))
  /\ (Exists (is_function_name unicode_lower) (get (nodes g)) ->
      Forall (is_function_name unicode_lower) r).
Proof.
  unfold extract_key_functions. cbv zeta.
  change (filter _ (get (nodes g)))
    with (filter (is_function_name unicode_lower) (get (nodes g))).
  set (functions := filter (is_function_name unicode_lower) (get (nodes g))).
  assert (Hfun : Forall (is_function_name unicode_lower) functions).
  { apply Forall_forall. by intros n [? _]%list_elem_of_filter. }
  assert (Hsub : functions `sublist_of` get (nodes g)) by apply sublist_filter.
  assert (Hall : forall n, n ∈ get (nodes g) ->
                           is_function_name unicode_lower n -> n ∈ functions).
  { intros n Hn Hfn. by apply list_elem_of_filter. }
  clearbody functions. destruct functions as [|f fs].
  - destruct (get (nodes g)) as [|n ns].
    + split; [done|]. split; [simpl; lia|]. split; [done|].
      intros H. inversion H.
    + split; [done|]. split; [rewrite length_take; lia|].
      split; [intros _; apply sublist_take|].
      intros (n' & Hn' & Hfn)%Exists_exists.
      pose proof (Hall n' Hn' Hfn) as Hin. inversion Hin.
  - split; [done|]. split; [rewrite length_take; lia|].
    split.
    + intros _. etrans; [apply sublist_take|done].
    + intros _. apply Forall_take. exact Hfun.
Qed.

(** ** [extract_key_components] *)

Lemma SFcompare_antisym (a b : spec_float) :
  SFcompare b a = option_map CompOpp (SFcompare a b).
Proof.
  destruct a as [[]|[]| |[] ma ea], b as [[]|[]| |[] mb eb]; simpl;
    try reflexivity;
    rewrite (Z.compare_antisym ea eb); destruct (ea ?= eb)%Z; simpl;
    try reflexivity;
    rewrite (Pos.compare_cont_antisym); simpl; try reflexivity.
  by rewrite CompOpp_involutive.
Qed.

(** The comparison of floats is asymmetric, hence irreflexive. *)
Lemma float_ltb_asym (x y : float) :
  (x <? y)%float = true -> (y <? x)%float = false.
Proof.
  rewrite !ltb_spec. unfold SFltb.
  rewrite (SFcompare_antisym (Prim2SF x) (Prim2SF y)).
  destruct (SFcompare (Prim2SF x) (Prim2SF y)) as [[]|]; simpl; congruence.
Qed.

Lemma float_ltb_irrefl (x : float) : (x <? x)%float = false.
Proof.
  destruct (x <? x)%float eqn:H; [|done].
  pose proof (float_ltb_asym x x H). congruence.
Qed.

(** The score that [degree_centrality] gives to a node. *)
Definition centrality_of (G : DiGraph) (n : str) : float :=
  if len (G_nodes G) <=? 1 then 1%float
  else (float_of_int (degree G n)
        * (1 / (float_of_int (len (G_nodes G)) - 1)))%float.

Lemma degree_centrality_scores (G : DiGraph) :
  degree_centrality G = map (fun n => (n, centrality_of G n)) (G_nodes G).
Proof.
  unfold degree_centrality, centrality_of.
  by destruct (len (G_nodes G) <=? 1).
Qed.

Lemma insert_desc_perm (x : str * float) (l : list (str * float)) :
  insert_desc x l ≡ₚ x :: l.
Proof.
  induction l as [|y l IH]; simpl; [done|].
  destruct (x.2 <? y.2)%float; [|done]. rewrite IH. apply Permutation_swap.
Qed.

Lemma sorted_desc_perm (l : list (str * float)) : sorted_desc l ≡ₚ l.
Proof.
  induction l as [|x l IH]; simpl; [done|].
  by rewrite insert_desc_perm, IH.
Qed.

(** No score is below the next one. *)
Fixpoint descending (l : list (str * float)) : Prop :=
  match l with
  | a :: (b :: _) as t => (a.2 <? b.2)%float = false /\ descending t
  | _ => True
  end.

Lemma insert_desc_descending (x : str * float) (l : list (str * float)) :
  descending l -> descending (insert_desc x l).
Proof.
  induction l as [|y l IH]; intros Hl; simpl; [done|].
  destruct (x.2 <? y.2)%float eqn:Hxy; [|by split].
  assert (Hl' : descending l) by (destruct l; [done|apply Hl]).
  specialize (IH Hl'). destruct l as [|z l]; simpl in *.
  - split; [by apply float_ltb_asym|done].
  - destruct (x.2 <? z.2)%float.
    + split; [apply Hl|done].
    + split; [by apply float_ltb_asym|done].
Qed.

Lemma sorted_desc_descending (l : list (str * float)) :
  descending (sorted_desc l).
Proof.
  induction l as [|x l IH]; simpl; [done|]. by apply insert_desc_descending.
Qed.

Lemma descending_lookup (l : list (str * float)) (i : nat)
    (a b : str * float) :
  descending l -> l !! i = Some a -> l !! S i = Some b ->
  (a.2 <? b.2)%float = false.
Proof.
  revert i. induction l as [|x l IH]; intros i Hl Ha Hb; [done|].
  destruct l as [|y l]; [done|]. destruct Hl as [Hxy Hl].
  destruct i as [|i]; simpl in Ha, Hb.
  - by injection Ha as <-; injection Hb as <-.
  - by apply (IH i).
Qed.

Lemma extract_key_components_ranked_aux (g : graph_data) :
  dependency_graph_wf g -> get (nodes g) <> [] ->
  exists ranked,
    ranked ≡ₚ get (nodes g)
    /\ extract_key_components g = take 5 ranked
    /\ forall i a b,
         ranked !! i = Some a -> ranked !! S i = Some b ->
         (centrality_of (graph_of g) a <? centrality_of (graph_of g) b)%float
         = false.
Proof.
  intros Hwf Hne.
  set (scores := degree_centrality (graph_of g)).
  set (sorted := sorted_desc scores).
  assert (Hekc : extract_key_components g = (take 5 sorted).*1).
  { unfold extract_key_components, sorted, scores, graph_of.
    by destruct (get (nodes g)). }
  assert (Hperm : sorted ≡ₚ scores) by apply sorted_desc_perm.
  assert (Hscores : scores
                    = map (fun n => (n, centrality_of (graph_of g) n))
                          (get (nodes g))).
  { unfold scores. by rewrite degree_centrality_scores, graph_of_nodes. }
  assert (Hkeys : Forall (fun p => p.2 = centrality_of (graph_of g) p.1) sorted).
  { rewrite Hperm, Hscores. apply Forall_fmap, Forall_forall. done. }
  exists sorted.*1. split; [|split].
  - rewrite Hperm, Hscores, <- list_fmap_compose. simpl.
    by rewrite list_fmap_id.
  - by rewrite Hekc, fmap_take.
  - intros i a b Ha Hb.
    apply list_lookup_fmap_Some in Ha as (pa & -> & Hpa).
    apply list_lookup_fmap_Some in Hb as (pb & -> & Hpb).
    rewrite Forall_forall in Hkeys.
    rewrite <- (Hkeys pa), <- (Hkeys pb)
      by (by eapply list_elem_of_lookup_2).
    apply (descending_lookup sorted i); [|done|done].
    apply sorted_desc_descending.
Qed.

(** X20: on a dependency graph with nodes, [extract_key_components] returns
    the first five names of a ranking of all the nodes in which no node has
    a lower degree-centrality score than the node after it. *)
Theorem extract_key_components_ranked (g : graph_data) :
  dependency_graph_wf g -> get (nodes g) <> [] ->
  exists ranked,
    ranked ≡ₚ get (nodes g)
    /\ extract_key_components g = take 5 ranked
    /\ forall i a b,
         ranked !! i = Some a -> ranked !! S i = Some b ->
         (centrality_of (graph_of g) a <? centrality_of (graph_of g) b)%float
         = false.
Proof. apply extract_key_components_ranked_aux. Qed.

Lemma extract_key_components_ranked_witness :
  exists ranked,
    ranked ≡ₚ get (nodes foo_bar_baz)
    /\ extract_key_components foo_bar_baz = take 5 ranked
    /\ forall i a b,
         ranked !! i = Some a -> ranked !! S i = Some b ->
         (centrality_of (graph_of foo_bar_baz) a
          <? centrality_of (graph_of foo_bar_baz) b)%float = false.
Proof.
  apply (extract_key_components_ranked foo_bar_baz foo_bar_baz_wf). done.
Defined.

Example extract_key_components_foo_bar_baz :
  extract_key_components foo_bar_baz = [py "Bar"; py "Foo"; py "Baz"].
Proof. vm_compute. reflexivity. Qed.

(** X21: [extract_key_components] returns at most five names, all of them
    different nodes of the graph, and as many as there are nodes when these
    are fewer than five. *)
Theorem extract_key_components_nodes (g : graph_data) :
  dependency_graph_wf g -> get (nodes g) <> [] ->
  length (extract_key_components g) = (length (get (nodes g)) `min` 5)%nat
  /\ NoDup (extract_key_components g)
  /\ forall n, n ∈ extract_key_components g -> n ∈ get (nodes g).
Proof.
  intros Hwf Hne.
  destruct (extract_key_components_ranked_aux g Hwf Hne)
    as (ranked & Hperm & -> & _).
  assert (Hsub : take 5 ranked `sublist_of` ranked) by apply sublist_take.
  split; [|split].
  - rewrite length_take, (Permutation_length Hperm). lia.
  - eapply sublist_NoDup; [|exact Hsub]. rewrite Hperm. apply Hwf.
  - intros n Hn. rewrite <- Hperm.
    apply list_elem_of_lookup in Hn as [i Hi].
    apply lookup_take_Some in Hi as [Hi _].
    by eapply list_elem_of_lookup_2.
Qed.

Lemma extract_key_components_nodes_witness :
  length (extract_key_components nine_nodes) = 5%nat
  /\ NoDup (extract_key_components nine_nodes)
  /\ forall n, n ∈ extract_key_components nine_nodes
               -> n ∈ get (nodes nine_nodes).
Proof.
  apply (extract_key_components_nodes nine_nodes nine_nodes_wf). done.
Defined.

Lemma sorted_desc_ties (l : list (str * float)) (k : float) :
  Forall (fun p => p.2 = k) l -> sorted_desc l = l.
Proof.
  induction 1 as [|x l Hx Hl IH]; simpl; [done|]. rewrite IH.
  destruct Hl as [|y l Hy _]; simpl; [done|].
  by rewrite Hx, Hy, float_ltb_irrefl.
Qed.

(** X22: when the graph has distinct nodes and no edge, all scores tie and
    the key components are the first five nodes in their order of listing. *)
Theorem extract_key_components_no_edges (g : graph_data) :
  NoDup (get (nodes g)) -> get (edges g) = [] -> get (nodes g) <> [] ->
  extract_key_components g = take 5 (get (nodes g)).
Proof.
  intros Hnd Hes Hne.
  assert (HG : graph_of g = {| G_nodes := get (nodes g); G_edges := [] |}).
  { unfold graph_of. rewrite Hes. simpl.
    pose proof (add_nodes_from_fresh (get (nodes g)) empty_graph Hnd) as Hn.
    pose proof (add_nodes_from_edges (get (nodes g)) empty_graph) as He.
    destruct (add_nodes_from empty_graph (get (nodes g))). simpl in *.
    by subst. }
  assert (Hekc : extract_key_components g
                 = (take 5 (sorted_desc (degree_centrality (graph_of g)))).*1).
  { unfold extract_key_components, graph_of. by destruct (get (nodes g)). }
  rewrite Hekc, degree_centrality_scores, HG. cbn [G_nodes].
  rewrite (sorted_desc_ties _ (centrality_of
             {| G_nodes := get (nodes g); G_edges := [] |} [])).
  - rewrite fmap_take, <- list_fmap_compose. simpl. by rewrite list_fmap_id.
  - apply Forall_fmap, Forall_forall. intros n _. done.
Qed.

Lemma extract_key_components_no_edges_witness :
  extract_key_components
    (nodes_only [py "a"; py "b"; py "c"; py "d"; py "e"; py "f"])
  = [py "a"; py "b"; py "c"; py "d"; py "e"].
Proof.
  apply (extract_key_components_no_edges
           (nodes_only [py "a"; py "b"; py "c"; py "d"; py "e"; py "f"])).
  - apply (bool_decide_unpack _). by vm_compute.
  - done.
  - done.
Defined.

(** ** Structure Extractor: the patterns of [extract_entities]

    Each pattern is [\bKEYWORD\s+(\w+)], searched with [re.findall] under
    [re.IGNORECASE].  The character classes and the case-insensitive
    comparison are fixed on ASCII; beyond ASCII they follow the Unicode
    tables of the interpreter, which are parameters here. *)

Section Patterns.

(** [str.isalnum] on a character that is not ASCII. *)
Variable unicode_isalnum : N -> bool.

(** Under [re.IGNORECASE], a character that is not ASCII matches the given
    lower-case letter. *)
Variable unicode_ci : N -> N -> bool.

(** [\w] *)
Definition is_word (c : N) : bool :=
  if is_ascii c
  then ((48 <=? c) && (c <=? 57) || (65 <=? c) && (c <=? 90)
        || (97 <=? c) && (c <=? 122) || (c =? 95))%N
  else unicode_isalnum c.

(** A character of the text against a letter of the keyword. *)
Definition ci_eq (c p : N) : bool :=
  if is_ascii c then (ascii_lower c =? ascii_lower p)%N
  else unicode_ci c (ascii_lower p).

(** [\b]: exactly one of the characters before and at the position is a
    word character; the ends of the text count as no word character. *)
Definition at_boundary (prev : option N) (s : str) : bool :=
  xorb (match prev with Some c => is_word c | None => false end)
       (match s with c :: _ => is_word c | [] => false end).

(** The keyword, letter by letter; returns the rest of the text. *)
Fixpoint match_keyword (kw s : str) : option str :=
  match kw with
  | [] => Some s
  | p :: kw' =>
      match s with
      | c :: s' => if ci_eq c p then match_keyword kw' s' else None
      | [] => None
      end
  end.

Fixpoint word_prefix (s : str) : str :=
  match s with
  | c :: s' => if is_word c then c :: word_prefix s' else []
  | [] => []
  end.

(** [(\w+)]: the longest run of word characters, not empty; returns the
    run and its length. *)
Definition word_at (s : str) : option (str * nat) :=
  match word_prefix s with
  | [] => None
  | w => Some (w, length w)
  end.

(** [\s+(\w+)]: as much whitespace as possible, giving back whitespace
    until a word follows; returns the word and the length matched. *)
Fixpoint spaces_then_word (s : str) : option (str * nat) :=
  match s with
  | c :: s' =>
      if isspace c
      then match (match spaces_then_word s' with
                  | Some r => Some r
                  | None => word_at s'
                  end) with
           | Some (w, n) => Some (w, S n)
           | None => None
           end
      else None
  | [] => None
  end.

(** One match attempt at a position: the captured group and the length of
    the whole match. *)
Definition match_at (kw : str) (prev : option N) (s : str)
    : option (str * nat) :=
  if at_boundary prev s
  then match match_keyword kw s with
       | Some rest =>
           match spaces_then_word rest with
           | Some (w, n) => Some (w, (length kw + n)%nat)
           | None => None
           end
       | None => None
       end
  else None.

(** [re.findall]: the matches from left to right, each search starting where
    the match before ended.  [skip] counts the characters still inside the
    last match. *)
Fixpoint findall_from (kw : str) (prev : option N) (s : str) (skip : nat)
    : list str :=
  match s with
  | [] => []
  | c :: s' =>
      match skip with
      | S k => findall_from kw (Some c) s' k
      | O =>
          match match_at kw prev s with
          | Some (w, n) => w :: findall_from kw (Some c) s' (n - 1)
          | None => findall_from kw (Some c) s' 0
          end
      end
  end.

Definition findall (kw : str) (text : str) : list str :=
  findall_from kw None text 0.

(** The keywords of [patterns], in order. *)
Definition patterns : list str :=
  [py "class"; py "function"; py "def"; py "const"; py "let"; py "var";
   py "interface"; py "type"; py "component"; py "API"; py "endpoint";
   py "service"; py "module"].

(** What [extract_entities] adds to its set, in order of insertion. *)
Definition entity_matches (chunks : list str) : list str :=
  flat_map (fun chunk => flat_map (fun kw => findall kw chunk) patterns)
           chunks.

End Patterns.

Section PatternProperties.

Variable unicode_isalnum : N -> bool.
Variable unicode_ci : N -> N -> bool.

Local Abbreviation is_word := (is_word unicode_isalnum).
Local Abbreviation ci_eq := (ci_eq unicode_ci).

(** Nothing, or something that does not start with a word character. *)
Definition no_word_ahead (b : str) : Prop :=
  match b with
  | c :: _ => is_word c = false
  | [] => True
  end.

(** [e] is captured in [s] after the keyword [kw]: the keyword in any case,
    then whitespace, then [e], a longest run of word characters. *)
Definition captured (kw s e : str) : Prop :=
  exists a k sp b,
    s = a ++ k ++ sp ++ e ++ b
    /\ Forall2 (fun c p => ci_eq c p = true) k kw
    /\ sp <> [] /\ Forall (fun c => isspace c = true) sp
    /\ e <> [] /\ Forall (fun c => is_word c = true) e
    /\ no_word_ahead b.

Lemma word_prefix_spec (s : str) :
  Forall (fun c => is_word c = true) (word_prefix unicode_isalnum s)
  /\ exists b, s = word_prefix unicode_isalnum s ++ b /\ no_word_ahead b.
Proof.
  induction s as [|c s (IH1 & b & IH2 & IH3)]; simpl.
  - split; [constructor|]. by exists [].
  - destruct (is_word c) eqn:Hc.
    + split; [by constructor|]. exists b. split; [|done]. simpl. by f_equal.
    + split; [constructor|]. by exists (c :: s).
Qed.

Lemma word_at_spec (s w : str) (n : nat) :
  word_at unicode_isalnum s = Some (w, n) ->
  n = length w /\ w <> [] /\ Forall (fun c => is_word c = true) w
  /\ exists b, s = w ++ b /\ no_word_ahead b.
Proof.
  unfold word_at. destruct (word_prefix_spec s) as (Hw & b & Hs & Hb).
  destruct (word_prefix unicode_isalnum s) as [|c w'] eqn:Hp; [done|].
  intros [= <- <-]. split; [done|]. split; [done|]. split; [done|].
  by exists b.
Qed.

Lemma spaces_then_word_spec (s w : str) (n : nat) :
  spaces_then_word unicode_isalnum s = Some (w, n) ->
  exists sp b,
    s = sp ++ w ++ b /\ n = (length sp + length w)%nat
    /\ sp <> [] /\ Forall (fun c => isspace c = true) sp
    /\ w <> [] /\ Forall (fun c => is_word c = true) w
    /\ no_word_ahead b.
Proof.
  revert n. induction s as [|c s IH]; intros n; simpl; [done|].
  destruct (isspace c) eqn:Hc; [|done].
  destruct (spaces_then_word unicode_isalnum s) as [[w' n']|] eqn:Hrec.
  - intros [= <- <-].
    destruct (IH n' eq_refl) as (sp & b & -> & -> & _ & Hsp & Hne & Hw & Hb).
    exists (c :: sp), b. split; [done|]. split; [simpl; lia|].
    split; [done|]. split; [by constructor|]. done.
  - destruct (word_at unicode_isalnum s) as [[w' n']|] eqn:Hword; [|done].
    intros [= <- <-].
    apply word_at_spec in Hword as (-> & Hne & Hw & b & -> & Hb).
    exists [c], b. split; [done|]. split; [simpl; lia|].
    split; [done|]. split; [by apply Forall_singleton|]. done.
Qed.

Lemma match_keyword_spec (kw s rest : str) :
  match_keyword unicode_ci kw s = Some rest ->
  exists k, s = k ++ rest /\ Forall2 (fun c p => ci_eq c p = true) k kw.
Proof.
  revert s. induction kw as [|p kw IH]; intros s; simpl.
  - intros [= <-]. by exists [].
  - destruct s as [|c s]; [done|]. destruct (ci_eq c p) eqn:Hc; [|done].
    intros (k & -> & Hk)%IH. exists (c :: k). split; [done|]. by constructor.
Qed.

Lemma match_at_spec (kw : str) (prev : option N) (s w : str) (n : nat) :
  match_at unicode_isalnum unicode_ci kw prev s = Some (w, n) ->
  exists k sp b,
    s = k ++ sp ++ w ++ b
    /\ Forall2 (fun c p => ci_eq c p = true) k kw
    /\ sp <> [] /\ Forall (fun c => isspace c = true) sp
    /\ w <> [] /\ Forall (fun c => is_word c = true) w
    /\ no_word_ahead b.
Proof.
  unfold match_at. destruct (at_boundary _ _ _); [|done].
  destruct (match_keyword unicode_ci kw s) as [rest|] eqn:Hkw; [|done].
  destruct (spaces_then_word unicode_isalnum rest) as [[w' n']|] eqn:Hsp;
    [|done].
  intros [= <- <-].
  apply match_keyword_spec in Hkw as (k & -> & Hk).
  apply spaces_then_word_spec in Hsp as (sp & b & -> & _ & H).
  by exists k, sp, b.
Qed.

Lemma captured_cons (kw s e : str) (c : N) :
  captured kw s e -> captured kw (c :: s) e.
Proof.
  intros (a & k & sp & b & -> & H). by exists (c :: a), k, sp, b.
Qed.

Lemma findall_from_captured (kw s : str) :
  forall prev skip e,
    e ∈ findall_from unicode_isalnum unicode_ci kw prev s skip ->
    captured kw s e.
Proof.
  induction s as [|c s IH]; intros prev skip e; simpl; [by inversion 1|].
  destruct skip as [|skip].
  - destruct (match_at unicode_isalnum unicode_ci kw prev (c :: s))
      as [[w n]|] eqn:Hm.
    + intros [->|He]%elem_of_cons.
      * apply match_at_spec in Hm as (k & sp & b & -> & H).
        by exists [], k, sp, b.
      * by eapply captured_cons, IH.
    + intros He. by eapply captured_cons, IH.
  - intros He. by eapply captured_cons, IH.
Qed.

Lemma entity_matches_captured_aux (chunks : list str) (e : str) :
  e ∈ entity_matches unicode_isalnum unicode_ci chunks ->
  exists chunk kw,
    chunk ∈ chunks /\ kw ∈ patterns /\ captured kw chunk e.
Proof.
  unfold entity_matches.
  intros (chunk & Hchunk & He)%list_elem_of_In%in_flat_map.
  apply in_flat_map in He as (kw & Hkw & He).
  exists chunk, kw. split; [by apply list_elem_of_In|].
  split; [by apply list_elem_of_In|].
  apply list_elem_of_In in He. by eapply findall_from_captured.
Qed.

(** X23: every match that [extract_entities] collects is, in one of the
    chunks, a longest run of word characters that follows one of the keywords
    (in any letter case) and whitespace. *)
Theorem entity_matches_captured (chunks : list str) (e : str) :
  e ∈ entity_matches unicode_isalnum unicode_ci chunks ->
  exists chunk kw,
    chunk ∈ chunks /\ kw ∈ patterns /\ captured kw chunk e.
Proof. apply entity_matches_captured_aux. Qed.

(** X24: chunks without whitespace give no entity. *)
Theorem entity_matches_no_space (chunks : list str) :
  Forall no_space chunks ->
  entity_matches unicode_isalnum unicode_ci chunks = [].
Proof.
  intros Hchunks.
  destruct (entity_matches unicode_isalnum unicode_ci chunks) as [|e l] eqn:He;
    [done|].
  destruct (entity_matches_captured_aux chunks e)
    as (chunk & kw & Hchunk & _ & a & k & sp & b & -> & _ & Hne & Hsp & _).
  { rewrite He. by left. }
  rewrite Forall_forall in Hchunks. specialize (Hchunks _ Hchunk).
  unfold no_space in Hchunks. rewrite !Forall_app in Hchunks.
  destruct Hchunks as (_ & _ & Hno & _).
  destruct sp as [|c sp]; [done|].
  apply Forall_cons_1 in Hsp as [Hc _]. apply Forall_cons_1 in Hno as [Hc' _].
  congruence.
Qed.

End PatternProperties.

Lemma entity_matches_captured_witness :
  exists chunk kw,
    chunk ∈ [py "class Foo uses class Bar"] /\ kw ∈ patterns
    /\ captured (fun _ => false) (fun _ _ => false) kw chunk (py "Bar").
Proof.
  apply (entity_matches_captured (fun _ => false) (fun _ _ => false)
           [py "class Foo uses class Bar"] (py "Bar")).
  apply list_elem_of_In. vm_compute. tauto.
Defined.

Lemma entity_matches_no_space_witness :
  entity_matches (fun _ => false) (fun _ _ => false)
    [py "classFoo"; py "def"] = [].
Proof.
  apply (entity_matches_no_space (fun _ => false) (fun _ _ => false)
           [py "classFoo"; py "def"]).
  repeat constructor.
Defined.

(** The scenario of two chunks that declare three classes. *)
Example entity_matches_foo_bar_baz :
  entity_matches (fun _ => false) (fun _ _ => false)
    [py "class Foo uses class Bar"; py "class Bar calls class Baz"]
  = [py "Foo"; py "Bar"; py "Bar"; py "Baz"].
Proof. vm_compute. reflexivity. Qed.

(** ** Entities declared together are joined *)








